(** * Push-driven cache synchronisation: [onCacheEntryAddedInvalidate]

    A shallow embedding of the asynchronous lifecycle handler

      onCacheEntryAddedInvalidate(rtkQuery, invalidates)

    of the wallet GUI.  The handler is an [async] function with three
    suspension points ([await cacheDataLoaded], [await Promise.all(...)],
    [await cacheEntryRemoved]); it is modelled as a transition system whose
    inputs are the settlements of the promises it awaits and the push
    payloads delivered to the callbacks it hands to [rtkQuery]. *)

From Stdlib Require Import QArith.
From stdpp Require Import base option list strings gmap.

(** ** Values supplied by the RPC layer *)

(** [response.data] when truthy: the value later called as
    [unsubscribe()].  [throws] tells whether that call raises (a handle
    whose connection already failed, or a truthy value that is no
    function). *)
Record Handle := { hid : nat; throws : bool }.

(** [response : { data?: any, error?: any }]; a missing or falsy [data]
    is [None]. *)
Record Response := { data : option Handle }.

(** An unsubscribe handle that returns normally. *)
Definition quiet (h : Handle) : Prop := throws h = false.

(** ** Outcome of the handler *)

Inductive Error :=
  | LoadRejected                     (* [cacheDataLoaded] rejected *)
  | SubscribeRejected (i : nat)      (* the i-th [rtkQuery] call rejected *)
  | UnsubscribeThrew (h : Handle).   (* [unsubscribe()] raised *)

Inductive Completion :=
  | Normal
  | Throw (e : Error).

(** Where the [async (args, api) => ...] body is suspended. *)
Inductive Phase :=
  | AwaitLoaded                          (* line 29 *)
  | AwaitAll                             (* line 31 *)
  | AwaitRemoved (pending : Completion)  (* line 63, inside [finally] *)
  | Settled (result : Completion).       (* the returned promise settled *)

(** State of one [async (invalidate) => ...] activation. *)
Inductive Activation :=
  | Pending
  | Fulfilled
  | Rejected.

Definition is_fulfilled (a : Activation) : bool :=
  match a with Fulfilled => true | _ => false end.

Section Manager.
(** [Service] is imported from the api package; the cached value, the
    push payload and the query argument are [any]. *)
Context {Service Draft Payload Args Endpoint : Type}.

(** The [Invalidate] descriptor, as destructured on line 32: every
    field but [command] and [service] may be absent. *)
Record Invalidate := {
  command : string;
  service : Service;
  endpoint : option Endpoint;
  onUpdate : option (Draft → Payload → Args → Draft);
  skip : option (Payload → Args → bool);
}.

(** The action built by [currentEndpoint.initiate(args, options)]. *)
Record Action := {
  act_endpoint : Endpoint;
  act_args : Args;
  subscribe : bool;
  forceRefetch : bool;
}.

Definition initiate (e : Endpoint) (a : Args) (sub force : bool) : Action :=
  {| act_endpoint := e; act_args := a; subscribe := sub; forceRefetch := force |}.

(** Calls made on the collaborators, in the order they happen. *)
Inductive Effect :=
  | ECall (c : string) (sv : Service) (handler : nat)
      (* rtkQuery({command, service, args: [handler]}, api, {}) *)
  | EUpdate (handler : nat) (payload : Payload)
      (* updateCachedData ran the recipe built from this payload *)
  | EDispatch (a : Action)
      (* dispatch(a) *)
  | EUnsub (h : Handle).
      (* unsubscribe() *)

Record State := {
  phase : Phase;
  removed : bool;                   (* [cacheEntryRemoved] has resolved *)
  activations : list Activation;    (* one per issued subscribe call *)
  unsubscribes : list Handle;       (* the array of line 27 *)
  cached : Draft;                   (* the cache entry's value *)
  effects : list Effect;
}.

Definition init (c0 : Draft) : State :=
  {| phase := AwaitLoaded; removed := false; activations := [];
     unsubscribes := []; cached := c0; effects := [] |}.

Definition set_phase (p : Phase) (s : State) : State :=
  {| phase := p; removed := removed s; activations := activations s;
     unsubscribes := unsubscribes s; cached := cached s;
     effects := effects s |}.

Definition emit (e : Effect) (s : State) : State :=
  {| phase := phase s; removed := removed s; activations := activations s;
     unsubscribes := unsubscribes s; cached := cached s;
     effects := effects s ++ [e] |}.

(** *** Projections of the effect log *)

Definition call_of (e : Effect) : option (string * Service * nat) :=
  match e with ECall c sv i => Some (c, sv, i) | _ => None end.
Definition update_of (e : Effect) : option (nat * Payload) :=
  match e with EUpdate i p => Some (i, p) | _ => None end.
Definition dispatch_of (e : Effect) : option Action :=
  match e with EDispatch a => Some a | _ => None end.
Definition unsub_of (e : Effect) : option Handle :=
  match e with EUnsub h => Some h | _ => None end.

Definition calls : list Effect → list (string * Service * nat) := omap call_of.
Definition updates : list Effect → list (nat * Payload) := omap update_of.
Definition dispatched : list Effect → list Action := omap dispatch_of.
Definition invoked : list Effect → list Handle := omap unsub_of.

(** ** The cache store primitives used by the push handler *)

(** [updateCachedData(recipe)]: runs the recipe once on the draft. *)
Definition updateCachedData (i : nat) (payload : Payload)
    (recipe : Draft → Draft) (s : State) : State :=
  emit (EUpdate i payload)
    {| phase := phase s; removed := removed s; activations := activations s;
       unsubscribes := unsubscribes s; cached := recipe (cached s);
       effects := effects s |}.

Definition dispatch (a : Action) (s : State) : State := emit (EDispatch a) s.

Section Instance.
Variable args : Args.
Variable invalidates : list Invalidate.

(** Lines 42-54: the two effects of an accepted push. *)
Definition applyPush (i : nat) (inv : Invalidate) (payload : Payload)
    (s : State) : State :=
  let s1 :=
    match onUpdate inv with
    | Some f => updateCachedData i payload (λ draft, f draft payload args) s
    | None => s
    end in
  match endpoint inv with
  | Some currentEndpoint =>
      dispatch (initiate currentEndpoint args false true) s1
  | None => s1
  end.

(** Line 38: [skip && !skip(data, args)]. *)
Definition discards (inv : Invalidate) (payload : Payload) : bool :=
  match skip inv with
  | Some sk => negb (sk payload args)
  | None => false
  end.

(** Lines 37-55: the callback passed to [rtkQuery] for descriptor [i]. *)
Definition pushHandler (i : nat) (inv : Invalidate) (payload : Payload)
    (s : State) : State :=
  if discards inv payload then s else applyPush i inv payload s.

(** Line 31: [invalidates.map(async ...)] runs every body up to its
    first [await], so all subscribe calls are made at once. *)
Definition subscribe_calls : list Effect :=
  imap (λ i inv, ECall (command inv) (service inv) i) invalidates.

Definition activate (s : State) : State :=
  {| phase := match invalidates with
              | [] => AwaitRemoved Normal   (* Promise.all([]) *)
              | _ => AwaitAll
              end;
     removed := removed s;
     activations := replicate (length invalidates) Pending;
     unsubscribes := unsubscribes s;
     cached := cached s;
     effects := effects s ++ subscribe_calls |}.

(** Lines 58-60, and the settlement of [Promise.all] when the last
    activation is fulfilled. *)
Definition record_response (i : nat) (r : Response) (s : State) : State :=
  let acts := <[i := Fulfilled]> (activations s) in
  {| phase := match phase s with
              | AwaitAll =>
                  if forallb is_fulfilled acts
                  then AwaitRemoved Normal else AwaitAll
              | p => p
              end;
     removed := removed s;
     activations := acts;
     unsubscribes := match data r with
                     | Some h => unsubscribes s ++ [h]
                     | None => unsubscribes s
                     end;
     cached := cached s;
     effects := effects s |}.

(** A rejected activation: [Promise.all] rejects on the first one and
    control enters [finally]; later rejections are ignored. *)
Definition record_rejection (i : nat) (s : State) : State :=
  {| phase := match phase s with
              | AwaitAll => AwaitRemoved (Throw (SubscribeRejected i))
              | p => p
              end;
     removed := removed s;
     activations := <[i := Rejected]> (activations s);
     unsubscribes := unsubscribes s;
     cached := cached s;
     effects := effects s |}.

(** Line 64: [unsubscribes.forEach((unsubscribe) => unsubscribe())].
    An exception leaves the loop. *)
Fixpoint forEach_unsubscribe (hs : list Handle) (log : list Effect)
    : list Effect * option Error :=
  match hs with
  | [] => (log, None)
  | h :: hs' =>
      let log' := log ++ [EUnsub h] in
      if throws h then (log', Some (UnsubscribeThrew h))
      else forEach_unsubscribe hs' log'
  end.

(** Lines 63-65 after [cacheEntryRemoved] resolved: run the loop and
    settle; an exception of the loop replaces the pending completion. *)
Definition teardown (pending : Completion) (s : State) : State :=
  let '(log, err) := forEach_unsubscribe (unsubscribes s) (effects s) in
  {| phase := Settled (match err with Some e => Throw e | None => pending end);
     removed := removed s;
     activations := activations s;
     unsubscribes := unsubscribes s;
     cached := cached s;
     effects := log |}.

(** ** Inputs of the handler *)

Inductive Event :=
  | CacheDataLoaded                      (* [cacheDataLoaded] resolved *)
  | CacheDataRejected                    (* [cacheDataLoaded] rejected *)
  | Respond (i : nat) (r : Response)     (* i-th [rtkQuery] resolved *)
  | Reject (i : nat)                     (* i-th [rtkQuery] rejected *)
  | CacheEntryRemoved                    (* [cacheEntryRemoved] resolved *)
  | Resume                               (* line 63 resumes *)
  | Push (i : nat) (payload : Payload).  (* i-th callback invoked *)

(** One turn of the event loop; [None] when the event cannot occur in
    that state (a promise settles once, a callback exists only once
    handed out, line 63 resumes only after the signal). *)
Definition step (s : State) (ev : Event) : option State :=
  match ev with
  | CacheDataLoaded =>
      match phase s with
      | AwaitLoaded => Some (activate s)
      | _ => None
      end
  | CacheDataRejected =>
      match phase s with
      | AwaitLoaded => Some (set_phase (AwaitRemoved (Throw LoadRejected)) s)
      | _ => None
      end
  | Respond i r =>
      match activations s !! i with
      | Some Pending => Some (record_response i r s)
      | _ => None
      end
  | Reject i =>
      match activations s !! i with
      | Some Pending => Some (record_rejection i s)
      | _ => None
      end
  | CacheEntryRemoved =>
      if removed s then None
      else Some {| phase := phase s; removed := true;
                   activations := activations s;
                   unsubscribes := unsubscribes s;
                   cached := cached s; effects := effects s |}
  | Resume =>
      match phase s with
      | AwaitRemoved pending =>
          if removed s then Some (teardown pending s) else None
      | _ => None
      end
  | Push i payload =>
      match invalidates !! i, activations s !! i with
      | Some inv, Some _ => Some (pushHandler i inv payload s)
      | _, _ => None
      end
  end.

Fixpoint run (s : State) (evs : list Event) : option State :=
  match evs with
  | [] => Some s
  | ev :: evs' =>
      match step s ev with
      | Some s' => run s' evs'
      | None => None
      end
  end.

(** [onCacheEntryAddedInvalidate(rtkQuery, invalidates)(args, api)],
    called on a cache entry holding [c0] and driven by the event loop
    through the events [evs]: the state it is in afterwards, [None] when
    the events cannot occur in that order. *)
Definition onCacheEntryAddedInvalidate (c0 : Draft) (evs : list Event)
    : option State :=
  run (init c0) evs.

(** The handles the responses of a trace carry, in resolution order. *)
Definition handle_of (ev : Event) : option Handle :=
  match ev with
  | Respond _ r => data r
  | _ => None
  end.

Definition established : list Event → list Handle := omap handle_of.

Definition is_failure (ev : Event) : bool :=
  match ev with
  | CacheDataRejected | Reject _ => true
  | _ => false
  end.

(** ** Vocabulary of the statements *)

(** The subscribe calls of a descriptor list: one per descriptor, in
    order, each carrying its own callback. *)
Definition expected_calls : list (string * Service * nat) :=
  imap (λ i inv, (command inv, service inv, i)) invalidates.

Definition unsettled (s : State) : Prop := ∀ c, phase s ≠ Settled c.

(** What holds of every state the handler can be in. *)
Definition coherent (s : State) : Prop :=
  (phase s = AwaitLoaded →
     activations s = [] ∧ unsubscribes s = [] ∧ effects s = []) ∧
  (unsettled s → invoked (effects s) = []) ∧
  (activations s ≠ [] → calls (effects s) = expected_calls).



(** The states after [cacheDataLoaded] rejected. *)
Definition load_failed (s : State) : Prop :=
  activations s = [] ∧ unsubscribes s = [] ∧ effects s = [] ∧
  (phase s = AwaitRemoved (Throw LoadRejected) ∨
   phase s = Settled (Throw LoadRejected) ∧ removed s = true).

(** The events that let a handler suspended in [finally] finish. *)
Definition finish (s : State) : list Event :=
  (if removed s then [] else [CacheEntryRemoved]) ++ [Resume].

(** ** Vocabulary of the further statements *)

(** What one push does to the cached value: lines 38-46 read on the draft
    alone. *)
Definition push_value (inv : Invalidate) (payload : Payload) (c : Draft)
    : Draft :=
  if discards inv payload then c
  else match onUpdate inv with
       | Some f => f c payload args
       | None => c
       end.

(** The pushes of a trace applied to a value in arrival order, every
    other event skipped. *)
Definition replay (c : Draft) (evs : list Event) : Draft :=
  foldl (λ c ev,
    match ev with
    | Push i payload =>
        match invalidates !! i with
        | Some inv => push_value inv payload c
        | None => c
        end
    | _ => c
    end) c evs.

(** The refetches the pushes of a trace dispatch, in arrival order. *)
Definition refetches (evs : list Event) : list Action :=
  evs ≫= λ ev,
    match ev with
    | Push i payload =>
        match invalidates !! i with
        | Some inv =>
            if discards inv payload then []
            else match endpoint inv with
                 | Some e => [initiate e args false true]
                 | None => []
                 end
        | None => []
        end
    | _ => []
    end.

(** The subscribe calls [order] acknowledged one after the other, call
    [i] with the response [r i]. *)
Definition acknowledge (r : nat → Response) (order : list nat) : list Event :=
  (λ i, Respond i (r i)) <$> order.

(** [Promise.all] is pending exactly while some call is. *)
Definition in_step (s : State) : Prop :=
  phase s = if forallb is_fulfilled (activations s)
            then AwaitRemoved Normal else AwaitAll.

End Instance.
End Manager.

Arguments Invalidate : clear implicits.
Arguments Action : clear implicits.
Arguments Effect : clear implicits.
Arguments State : clear implicits.
Arguments Event : clear implicits.


(** * The scenarios of the specification *)

(** [ServiceName.ts] *)
Inductive ServiceName :=
  | WALLET | FULL_NODE | FARMER | HARVESTER | SIMULATOR
  | DAEMON | PLOTTER | TIMELORD | INTRODUCER | EVENTS.

Definition service_value (sv : ServiceName) : string :=
  match sv with
  | WALLET => "littlelambocoin_wallet"
  | FULL_NODE => "littlelambocoin_full_node"
  | FARMER => "littlelambocoin_farmer"
  | HARVESTER => "littlelambocoin_harvester"
  | SIMULATOR => "littlelambocoin_full_node_simulator"
  | DAEMON => "daemon"
  | PLOTTER => "littlelambocoin_plotter"
  | TIMELORD => "littlelambocoin_timelord"
  | INTRODUCER => "littlelambocoin_introducer"
  | EVENTS => "wallet_ui"
  end.

(** Payloads, drafts and arguments are plain objects. *)
Inductive JsVal :=
  | JsUndefined
  | JsNumber (n : Z)
  | JsString (t : string).

Abbreviation JsObject := (gmap string JsVal).

(** [o.k] *)
Definition get (o : JsObject) (k : string) : JsVal := default JsUndefined (o !! k).

(** [a === b] *)
Definition strict_eq (a b : JsVal) : bool :=
  match a, b with
  | JsUndefined, JsUndefined => true
  | JsNumber x, JsNumber y => Z.eqb x y
  | JsString x, JsString y => String.eqb x y
  | _, _ => false
  end.

Abbreviation Descriptor := (Invalidate ServiceName JsObject JsObject JsObject string).

(** [{command: "sub_balance", onUpdate: (d, p) => { d.balance = p.balance }}] *)
Definition sub_balance : Descriptor :=
  {| command := "sub_balance"; service := WALLET; endpoint := None;
     onUpdate := Some (λ draft payload _,
                   <["balance" := get payload "balance"]> draft);
     skip := None |}.

(** The same with [skip: (p, args) => p.walletId === args.walletId]. *)
Definition sub_balance_of_wallet : Descriptor :=
  {| command := "sub_balance"; service := WALLET; endpoint := None;
     onUpdate := Some (λ draft payload _,
                   <["balance" := get payload "balance"]> draft);
     skip := Some (λ payload a,
               strict_eq (get payload "walletId") (get a "walletId")) |}.

(** A descriptor that refetches a dependent query. *)
Definition refetch_transactions : Descriptor :=
  {| command := "on_coin_added"; service := WALLET;
     endpoint := Some "getTransactions";
     onUpdate := None; skip := None |}.

(** A descriptor carrying both triggers. *)
Definition balance_and_refetch : Descriptor :=
  {| command := "sub_balance"; service := WALLET;
     endpoint := Some "getTransactions";
     onUpdate := Some (λ draft payload _,
                   <["balance" := get payload "balance"]> draft);
     skip := None |}.

Definition balance (n : Z) : JsObject := {[ "balance" := JsNumber n ]}.

Definition wallet (w : Z) : JsObject := {[ "walletId" := JsNumber w ]}.

Definition wallet_balance (w n : Z) : JsObject :=
  <["walletId" := JsNumber w]> (balance n).

Definition h1 : Handle := {| hid := 1; throws := false |}.
Definition h2 : Handle := {| hid := 2; throws := false |}.
Definition h_bad : Handle := {| hid := 3; throws := true |}.

Definition with_handle (h : Handle) : Response := {| data := Some h |}.

Abbreviation St0 := (State ServiceName JsObject JsObject JsObject string).

(** * Block rewards ([blockRewards.ts])

    A [Big] is an exact decimal and [times] multiplies exactly; both are
    rationals here.  A height is a whole number. *)

Definition MOJO_PER_LITTLELAMBOCOIN : Q := 1000000000000.
Definition BLOCKS_PER_YEAR : Z := 1681920.
Definition POOL_REWARD : Q := 0.875.
Definition FARMER_REWARD : Q := 0.125.

Definition calculatePoolReward (height : Z) : Q :=
  if (height =? 0)%Z then
    MOJO_PER_LITTLELAMBOCOIN * 21000000 * POOL_REWARD
  else if (height <? 3 * BLOCKS_PER_YEAR)%Z then
    MOJO_PER_LITTLELAMBOCOIN * 2 * POOL_REWARD
  else if (height <? 6 * BLOCKS_PER_YEAR)%Z then
    MOJO_PER_LITTLELAMBOCOIN * 1 * POOL_REWARD
  else if (height <? 9 * BLOCKS_PER_YEAR)%Z then
    MOJO_PER_LITTLELAMBOCOIN * 0.5 * POOL_REWARD
  else if (height <? 12 * BLOCKS_PER_YEAR)%Z then
    MOJO_PER_LITTLELAMBOCOIN * 0.25 * POOL_REWARD
  else
    MOJO_PER_LITTLELAMBOCOIN * 0.125 * POOL_REWARD.

Definition calculateBaseFarmerReward (height : Z) : Q :=
  if (height =? 0)%Z then
    MOJO_PER_LITTLELAMBOCOIN * 21000000 * FARMER_REWARD
  else if (height <? 3 * BLOCKS_PER_YEAR)%Z then
    MOJO_PER_LITTLELAMBOCOIN * 2 * FARMER_REWARD
  else if (height <? 6 * BLOCKS_PER_YEAR)%Z then
    MOJO_PER_LITTLELAMBOCOIN * 1 * FARMER_REWARD
  else if (height <? 9 * BLOCKS_PER_YEAR)%Z then
    MOJO_PER_LITTLELAMBOCOIN * 0.5 * FARMER_REWARD
  else if (height <? 12 * BLOCKS_PER_YEAR)%Z then
    MOJO_PER_LITTLELAMBOCOIN * 0.25 * FARMER_REWARD
  else
    MOJO_PER_LITTLELAMBOCOIN * 0.125 * FARMER_REWARD.

(** * Sending a token ([WalletCATSend], [handleSubmit])

    A string is its sequence of code units; the indices below are never
    negative. *)

(** [s.includes(pat)] *)
Fixpoint includes (s pat : string) : bool :=
  match s with
  | EmptyString => String.prefix pat s
  | String _ s' => String.prefix pat s || includes s' pat
  end.

(** [s.startsWith(pat)] *)
Definition startsWith (s pat : string) : bool := String.prefix pat s.

(** [s.slice(b, e)] *)
Definition slice (s : string) (b e : nat) : string := String.substring b (e - b) s.

(** [s.slice(b)] *)
Definition slice_from (s : string) (b : nat) : string :=
  String.substring b (String.length s) s.

(** A string in a condition: the empty string is falsy. *)
Definition truthy (s : string) : bool :=
  match s with
  | EmptyString => false
  | String _ _ => true
  end.

Record SendTransactionData := {
  address : string;
  amount : string;
  fee : string;
  memo : string;
}.

(** What the components read of a wallet: [wallet.type] and
    [wallet.meta?.assetId].  [WalletType] is imported. *)
Record WalletMeta := { assetId : option string }.
Record Wallet (WalletType : Type) := {
  type : WalletType;
  meta : option WalletMeta;
}.
Arguments type {WalletType} _.
Arguments meta {WalletType} _.

(** [wallet.meta?.assetId] *)
Definition wallet_assetId {WalletType} (wallet : Wallet WalletType)
    : option string :=
  match meta wallet with
  | Some m => assetId m
  | None => None
  end.

(** The messages of the errors thrown, in source order. *)
Inductive SubmitError :=
  | FinishSyncing
  | InvalidAmount
  | InvalidFee
  | ColouredAddress
  | NotColouredWalletAddress
  | DifferentColour.

Section WalletCATSend.
(** [SyncingStatus], [isNumeric], [catToMojo] and [littlelambocoinToMojo]
    are imported; [trim] is the string method. *)
Context {SyncingStatus WalletType Mojo : Type} `{EqDecision SyncingStatus}.
Variable SYNCED : SyncingStatus.
Variable trim : string → string.
Variable isNumeric : string → bool.
Variable catToMojo : string → Mojo.
Variable littlelambocoinToMojo : string → Mojo.

(** [useIsWalletSynced], on what [useWalletState] returned. *)
Definition useIsWalletSynced (isLoading : bool) (state : SyncingStatus) : bool :=
  negb isLoading && bool_decide (state = SYNCED).

Record QueryData := {
  q_walletId : Z;
  q_address : string;
  q_amount : Mojo;
  q_fee : Mojo;
  waitForConfirmation : bool;
  memos : option (list string);
}.

(** How far [handleSubmit] gets. *)
Inductive Submission :=
  | Thrown (e : SubmitError)
  | Returned                  (* line 117: [return] *)
  | Spend (q : QueryData).    (* line 175: [spendCAT(queryData)] *)

(** Lines 130-133 *)
Definition retired (retireAddress : option string) (a : string) : string :=
  match retireAddress with
  | Some r => if String.eqb a "retire" && truthy r then r else a
  | None => a
  end.

(** Lines 142-149 *)
Definition strip_colour (assetId : option string) (a : string)
    : SubmitError + string :=
  if String.eqb (slice a 0 14) "colour_addr://" then
    let colour_id := slice a 14 78 in
    let a' := slice_from a 79 in
    if match assetId with
       | Some i => negb (String.eqb colour_id i)
       | None => true
       end
    then inl DifferentColour else inr a'
  else inr a.

(** Lines 150-155 *)
Definition strip_prefixes (a : string) : string :=
  let a1 :=
    if String.eqb (slice a 0 12) "littlelambocoin_addr://"
    then slice_from a 12 else a in
  if startsWith a1 "0x" || startsWith a1 "0X" then slice_from a1 2 else a1.

(** [handleSubmit(data)] up to the call of [spendCAT] (lines 109-175),
    with the values the component holds when it is called. *)
Definition handleSubmit (walletId : Z) (wallet : option (Wallet WalletType))
    (isSpendCatLoading loading : bool) (state : SyncingStatus)
    (retireAddress : option string) (data : SendTransactionData)
    : Submission :=
  let canSubmit :=
    bool_decide (is_Some wallet) && negb isSpendCatLoading && negb loading in
  let assetId :=
    match wallet with
    | Some w => wallet_assetId w
    | None => None
    end in
  if negb (bool_decide (state = SYNCED)) then Thrown FinishSyncing
  else if negb canSubmit then Returned
  else
    let amount := trim (amount data) in
    if negb (isNumeric amount) then Thrown InvalidAmount
    else
      let fee := if truthy (trim (fee data)) then trim (fee data) else "0"%string in
      if negb (isNumeric fee) then Thrown InvalidFee
      else
        let address := retired retireAddress (address data) in
        if includes address "colour" then Thrown ColouredAddress
        else if includes address "littlelambocoin_addr"
                || includes address "colour_desc"
        then Thrown NotColouredWalletAddress
        else
          match strip_colour assetId address with
          | inl e => Thrown e
          | inr address =>
              let address := strip_prefixes address in
              let memo := trim (memo data) in
              Spend {| q_walletId := walletId;
                       q_address := address;
                       q_amount := catToMojo amount;
                       q_fee := littlelambocoinToMojo fee;
                       waitForConfirmation := true;
                       memos := if truthy memo then Some [memo] else None |}
          end.

End WalletCATSend.

(** * The wallet's icon and badge ([WalletIcon], [WalletBadge]) *)

(** A token of the list [useGetCatListQuery] returns. *)
Record CatToken := { token_assetId : string; symbol : string }.

(** What [WalletIcon] renders. *)
Inductive Icon :=
  | CurrencySymbol (currencyCode : option string)
  | TokenSymbol (sym : string)
  | NoIcon.

Section WalletIcons.
Context {WalletType : Type} `{EqDecision WalletType}.
Variable STANDARD_WALLET CAT : WalletType.

(** [catList.find((token) => token.assetId === wallet.meta?.assetId)] *)
Definition find_token (catList : list CatToken) (wallet : Wallet WalletType)
    : option CatToken :=
  List.find
    (λ token, bool_decide (Some (token_assetId token) = wallet_assetId wallet))
    catList.

(** [WalletBadge]: whether the badge is rendered rather than [null];
    [data] is what the query returned, [catList] defaulting to []. *)
Definition WalletBadge (data : option (list CatToken)) (isLoading : bool)
    (wallet : Wallet WalletType) : bool :=
  let catList := default [] data in
  if negb isLoading && bool_decide (type wallet = CAT) then
    match find_token catList wallet with
    | Some _ => true
    | None => false
    end
  else false.

(** [WalletIcon] *)
Definition WalletIcon (data : option (list CatToken)) (isLoading : bool)
    (currencyCode : option string) (wallet : Wallet WalletType) : Icon :=
  let catList := default [] data in
  if bool_decide (type wallet = STANDARD_WALLET) then
    CurrencySymbol currencyCode
  else if negb isLoading && bool_decide (type wallet = CAT) then
    match find_token catList wallet with
    | Some token => TokenSymbol (symbol token)
    | None => NoIcon
    end
  else NoIcon.

End WalletIcons.

(** Stand-ins for the imported functions, for running [handleSubmit]:
    a string of decimal digits is numeric, amounts are kept as written. *)
Fixpoint all_digits (s : string) : bool :=
  match s with
  | EmptyString => true
  | String c s' =>
      (Nat.leb 48 (Ascii.nat_of_ascii c) && Nat.leb (Ascii.nat_of_ascii c) 57)
      && all_digits s'
  end.

Definition digits (s : string) : bool := truthy s && all_digits s.

Definition a_wallet : Wallet nat :=
  {| type := 6; meta := Some {| assetId := Some "a1" |} |}.

Definition a_token : CatToken := {| token_assetId := "a1"; symbol := "TKN" |}.
Definition other_token : CatToken := {| token_assetId := "b2"; symbol := "OTH" |}.

Definition a_transfer (to : string) : SendTransactionData :=
  {| address := to; amount := "5"; fee := ""; memo := "" |}.

(** * Properties *)

Section Properties.
Context {Service Draft Payload Args Endpoint : Type}.
Variable args : Args.
Variable invalidates : list (Invalidate Service Draft Payload Args Endpoint).

Abbreviation St := (State Service Draft Payload Args Endpoint).
Abbreviation Ev := (Event Payload).
Abbreviation Eff := (Effect Service Payload Args Endpoint).
Abbreviation step := (step args invalidates).
Abbreviation run := (run args invalidates).
Abbreviation handler := (onCacheEntryAddedInvalidate args invalidates).
Abbreviation coherent := (coherent invalidates).

Implicit Types (s : St) (ev : Ev) (tr pre post : list Ev)
  (h : Handle) (hs : list Handle) (log : list Eff).

(** ** Traces *)

Lemma run_app s tr1 tr2 :
  run s (tr1 ++ tr2) = run s tr1 ≫= λ s1, run s1 tr2.
Proof.
  revert s. induction tr1 as [|ev tr1 IH]; intros s; simpl; [done|].
  destruct (step s ev) as [s1|]; simpl; [apply IH | done].
Qed.

Lemma run_app_Some s tr1 tr2 s' :
  run s (tr1 ++ tr2) = Some s' ↔
  ∃ s1, run s tr1 = Some s1 ∧ run s1 tr2 = Some s'.
Proof.
  rewrite run_app. destruct (run s tr1) as [s1|]; simpl.
  - split; [eauto | by intros (? & [= <-] & ?)].
  - split; [done | by intros (? & ? & ?)].
Qed.

Lemma run_cons_Some s ev tr s' :
  run s (ev :: tr) = Some s' ↔
  ∃ s1, step s ev = Some s1 ∧ run s1 tr = Some s'.
Proof.
  simpl. destruct (step s ev) as [s1|].
  - split; [eauto | by intros (? & [= <-] & ?)].
  - split; [done | by intros (? & ? & ?)].
Qed.

(** A property kept by every step is kept by every trace. *)
Lemma run_preserves (P : St → Prop) :
  (∀ s ev s', P s → step s ev = Some s' → P s') →
  ∀ tr s s', P s → run s tr = Some s' → P s'.
Proof.
  intros Hstep. induction tr as [|ev tr IH]; intros s s' HP Hrun.
  - by injection Hrun as <-.
  - apply run_cons_Some in Hrun as (s1 & H1 & Hrun). eauto.
Qed.

(** ** The effect log *)

Lemma omap_imap_Some {A B C} (f : nat → A → B) (g : B → option C)
    (k : nat → A → C) (l : list A) :
  (∀ i x, g (f i x) = Some (k i x)) → omap g (imap f l) = imap k l.
Proof.
  revert f k. induction l as [|x l IH]; intros f k Hg; simpl; [done|].
  rewrite Hg. f_equal. apply IH. intros i y. apply Hg.
Qed.

Lemma omap_imap_None {A B C} (f : nat → A → B) (g : B → option C)
    (l : list A) :
  (∀ i x, g (f i x) = None) → omap g (imap f l) = [].
Proof.
  revert f. induction l as [|x l IH]; intros f Hg; simpl; [done|].
  rewrite Hg. apply IH. intros i y. apply Hg.
Qed.

Lemma omap_fmap_None {A B C} (f : A → B) (g : B → option C) (l : list A) :
  (∀ x, g (f x) = None) → omap g (f <$> l) = [].
Proof. intros Hg. induction l as [|x l IH]; simpl; [done|]. by rewrite Hg. Qed.

Lemma calls_subscribe_calls :
  calls (subscribe_calls invalidates) = expected_calls invalidates.
Proof. by apply omap_imap_Some. Qed.

Lemma invoked_subscribe_calls : invoked (subscribe_calls invalidates) = [].
Proof. by apply omap_imap_None. Qed.

Lemma invoked_app log1 log2 : invoked (log1 ++ log2) = invoked log1 ++ invoked log2.
Proof. apply omap_app. Qed.

Lemma calls_app log1 log2 : calls (log1 ++ log2) = calls log1 ++ calls log2.
Proof. apply omap_app. Qed.

Lemma calls_unsubs hs : calls (EUnsub <$> hs : list Eff) = [].
Proof. by apply omap_fmap_None. Qed.

Lemma invoked_unsubs hs : invoked (EUnsub <$> hs : list Eff) = hs.
Proof. induction hs as [|h hs IH]; simpl; [done|]. by f_equal. Qed.

(** ** The [forEach] loop *)

(** The loop only ever appends unsubscribe calls, for a prefix of the
    array. *)
Lemma forEach_appends hs log :
  ∃ hs1 hs2, hs = hs1 ++ hs2 ∧
    (forEach_unsubscribe hs log).1 = log ++ (EUnsub <$> hs1).
Proof.
  revert log. induction hs as [|h hs IH]; intros log; simpl.
  - exists [], []. simpl. by rewrite app_nil_r.
  - destruct (throws h); simpl.
    + by exists [h], hs.
    + destruct (IH (log ++ [EUnsub h])) as (hs1 & hs2 & -> & ->).
      exists (h :: hs1), hs2. simpl. by rewrite <- app_assoc.
Qed.

Lemma forEach_quiet hs log :
  Forall quiet hs →
  forEach_unsubscribe hs log = (log ++ (EUnsub <$> hs), None).
Proof.
  intros Hq. revert log. induction Hq as [|h hs Hh _ IH]; intros log; simpl.
  - by rewrite app_nil_r.
  - unfold quiet in Hh. rewrite Hh, IH. simpl. by rewrite <- app_assoc.
Qed.

Lemma forEach_throws hs1 h hs2 log :
  Forall quiet hs1 → throws h = true →
  forEach_unsubscribe (hs1 ++ h :: hs2) log =
    (log ++ (EUnsub <$> hs1 ++ [h]), Some (UnsubscribeThrew h)).
Proof.
  intros Hq Hh. revert log. induction Hq as [|h1 hs1 Hh1 _ IH]; intros log; simpl.
  - by rewrite Hh.
  - unfold quiet in Hh1. rewrite Hh1, IH. simpl. by rewrite <- app_assoc.
Qed.

(** ** The push handler leaves the lifecycle alone *)

Lemma pushHandler_frame i inv payload s :
  let s' := pushHandler args i inv payload s in
  phase s' = phase s ∧ removed s' = removed s ∧
  activations s' = activations s ∧ unsubscribes s' = unsubscribes s ∧
  calls (effects s') = calls (effects s) ∧
  invoked (effects s') = invoked (effects s).
Proof.
  unfold pushHandler, applyPush, updateCachedData, dispatch, emit, calls, invoked.
  repeat case_match; simpl; rewrite ?omap_app; simpl; rewrite ?app_nil_r; done.
Qed.

(** ** Single steps *)

Ltac step_inv H :=
  match type of H with
  | _ ?s ?ev = Some _ =>
      destruct ev; simpl in H; repeat case_match; simplify_eq
  end.

Lemma step_settled s ev s' c :
  phase s = Settled c → step s ev = Some s' →
  phase s' = Settled c ∧ invoked (effects s') = invoked (effects s).
Proof.
  intros Hp Hs. step_inv Hs; simpl; try (rewrite Hp in *; done).
  destruct (pushHandler_frame i i0 payload s) as (-> & _ & _ & _ & _ & ->).
  done.
Qed.

Lemma step_invoked s ev s' :
  step s ev = Some s' → unsettled s' →
  invoked (effects s') = invoked (effects s).
Proof.
  intros Hs Hu. step_inv Hs; simpl; try done.
  - by rewrite invoked_app, invoked_subscribe_calls, app_nil_r.
  - exfalso. unfold teardown in Hu. case_match. by eapply (Hu _).
  - by destruct (pushHandler_frame i i0 payload s) as (_ & _ & _ & _ & _ & ->).
Qed.

Lemma step_unsettled s ev s' :
  step s ev = Some s' → unsettled s' → unsettled s.
Proof.
  intros Hs Hu c Hp. destruct (step_settled _ _ _ _ Hp Hs) as [Hp' _].
  by eapply Hu.
Qed.

(** The array grows by exactly the handles the responses carry. *)
Lemma step_unsubscribes s ev s' :
  step s ev = Some s' →
  unsubscribes s' = unsubscribes s ++ established [ev].
Proof.
  intros Hs. unfold established.
  step_inv Hs; simpl; rewrite ?app_nil_r; try done.
  - destruct (data r); simpl; by rewrite ?app_nil_r.
  - unfold teardown. by case_match.
  - by destruct (pushHandler_frame i i0 payload s) as (_ & _ & _ & -> & _).
Qed.

Lemma run_unsubscribes tr s s' :
  run s tr = Some s' → unsubscribes s' = unsubscribes s ++ established tr.
Proof.
  revert s. induction tr as [|ev tr IH]; intros s Hrun.
  - injection Hrun as <-. unfold established. simpl. by rewrite app_nil_r.
  - apply run_cons_Some in Hrun as (s1 & H1 & Hrun).
    rewrite (IH _ Hrun), (step_unsubscribes _ _ _ H1).
    rewrite <- app_assoc. f_equal. unfold established.
    by rewrite <- omap_app.
Qed.

(** Subscribe calls are made by the step out of [AwaitLoaded] only. *)
Lemma step_calls s ev s' :
  phase s ≠ AwaitLoaded → step s ev = Some s' →
  phase s' ≠ AwaitLoaded ∧ calls (effects s') = calls (effects s).
Proof.
  intros Hp Hs. step_inv Hs; simpl; try done; try (by repeat case_match).
  - unfold teardown.
    destruct (forEach_appends (unsubscribes s) (effects s)) as (hs1 & hs2 & _ & Hl).
    case_match. simpl in *. subst. split; [done|].
    by rewrite calls_app, calls_unsubs, app_nil_r.
  - destruct (pushHandler_frame i i0 payload s) as (-> & _ & _ & _ & -> & _).
    done.
Qed.

Lemma run_calls tr s s' :
  phase s ≠ AwaitLoaded → run s tr = Some s' →
  phase s' ≠ AwaitLoaded ∧ calls (effects s') = calls (effects s).
Proof.
  revert s. induction tr as [|ev tr IH]; intros s Hp Hrun.
  - by injection Hrun as <-.
  - apply run_cons_Some in Hrun as (s1 & H1 & Hrun).
    destruct (step_calls _ _ _ Hp H1) as [Hp1 <-]. by apply IH.
Qed.

Lemma step_coherent s ev s' : coherent s → step s ev = Some s' → coherent s'.
Proof.
  intros (Hidle & Hq & Hc) Hs.
  assert (phase s = AwaitLoaded → ∀ i, activations s !! i = None) as Hnone.
  { intros Hl i. destruct (Hidle Hl) as [-> _]. done. }
  split; [|split].
  - intros Hp.
    rewrite (step_unsubscribes _ _ _ Hs).
    cut (activations s' = [] ∧ unsubscribes s = [] ∧ effects s' = []
         ∧ established [ev] = []).
    { intros (-> & -> & -> & ->). done. }
    unfold established.
    step_inv Hs; simpl in *;
      try (by repeat case_match); try (by apply Hidle);
      try (unfold teardown in Hp; by case_match);
      try (destruct (phase s) eqn:E; repeat case_match; try done;
           by rewrite Hnone in * ).
    + destruct (Hidle Hp) as (? & ? & ?). done.
    + destruct (pushHandler_frame i i0 payload s) as (Hp' & _).
      rewrite Hp' in Hp. by rewrite Hnone in *.
  - intros Hu. rewrite (step_invoked _ _ _ Hs Hu).
    apply Hq. by eapply step_unsettled.
  - intros Ha.
    assert (phase s = AwaitLoaded ∨ phase s ≠ AwaitLoaded) as [Hl|Hl]
      by (destruct (phase s); auto).
    + destruct (Hidle Hl) as (Ha0 & _ & He0).
      step_inv Hs; simpl in *; try congruence.
      * by rewrite He0, app_nil_l, calls_subscribe_calls.
      * by rewrite Ha0 in *.
      * by rewrite Ha0 in *.
      * by rewrite Ha0 in *.
    + destruct (step_calls _ _ _ Hl Hs) as [_ ->]. apply Hc.
      intros Ha0. step_inv Hs; simpl in *; try done;
        try (by rewrite Ha0 in * ).
      unfold teardown in Ha. by case_match.
Qed.

Lemma init_coherent c0 : coherent (init c0).
Proof. by split. Qed.

Lemma run_coherent tr s s' : coherent s → run s tr = Some s' → coherent s'.
Proof. apply (run_preserves coherent). intros. by eapply step_coherent. Qed.

Lemma run_settled tr s s' c :
  phase s = Settled c → run s tr = Some s' →
  phase s' = Settled c ∧ invoked (effects s') = invoked (effects s).
Proof.
  revert s. induction tr as [|ev tr IH]; intros s Hp Hrun.
  - by injection Hrun as <-.
  - apply run_cons_Some in Hrun as (s1 & H1 & Hrun).
    destruct (step_settled _ _ _ _ Hp H1) as [Hp1 <-]. by apply IH.
Qed.

(** [removed] is raised by the signal and by nothing else. *)
Lemma step_removed s ev s' :
  step s ev = Some s' → removed s' = true →
  removed s = true ∨ ev = CacheEntryRemoved.
Proof.
  intros Hs Hr. step_inv Hs; simpl in *; auto.
  destruct (pushHandler_frame i i0 payload s) as (_ & Hr' & _).
  rewrite Hr' in Hr. auto.
Qed.

Lemma run_removed tr s s' :
  run s tr = Some s' → removed s' = true →
  removed s = true ∨ CacheEntryRemoved ∈ tr.
Proof.
  revert s. induction tr as [|ev tr IH]; intros s Hrun Hr.
  - injection Hrun as <-. auto.
  - apply run_cons_Some in Hrun as (s1 & H1 & Hrun).
    destruct (IH _ Hrun Hr) as [Hr1|Hin].
    + destruct (step_removed _ _ _ H1 Hr1) as [?| ->]; [auto|].
      right. apply list_elem_of_here.
    + right. by apply list_elem_of_further.
Qed.

(** ** Teardown *)

Lemma teardown_quiet c s :
  Forall quiet (unsubscribes s) →
  phase (teardown c s) = Settled c ∧
  effects (teardown c s) = effects s ++ (EUnsub <$> unsubscribes s) ∧
  removed (teardown c s) = removed s.
Proof. intros Hq. unfold teardown. by rewrite forEach_quiet. Qed.

Lemma teardown_throws c s hs1 h hs2 :
  unsubscribes s = hs1 ++ h :: hs2 → Forall quiet hs1 → throws h = true →
  phase (teardown c s) = Settled (Throw (UnsubscribeThrew h)) ∧
  effects (teardown c s) = effects s ++ (EUnsub <$> hs1 ++ [h]).
Proof.
  intros Hu Hq Hh. unfold teardown. rewrite Hu.
  by rewrite (forEach_throws _ _ _ _ Hq Hh).
Qed.

Lemma teardown_settles c s : ∃ c', phase (teardown c s) = Settled c'.
Proof. unfold teardown. case_match. simpl. eauto. Qed.

(** A handler suspended in [finally] can always finish: the removed
    signal, if still due, then the resumption of line 63. *)
Lemma finish_runs c s :
  phase s = AwaitRemoved c →
  run s (finish s) = Some (teardown c (if removed s then s else
    {| phase := phase s; removed := true; activations := activations s;
       unsubscribes := unsubscribes s; cached := cached s;
       effects := effects s |})).
Proof.
  intros Hp. unfold finish. destruct (removed s) eqn:Hr; simpl.
  - by rewrite Hp, Hr.
  - by rewrite Hr, Hp.
Qed.

(** Line 63 does not resume before the removed signal. *)
Lemma resume_waits s : removed s = false → step s Resume = None.
Proof. intros Hr. simpl. rewrite Hr. by case_match. Qed.

(** The shape of every run in which line 64 is reached. *)
Lemma run_through_teardown c0 pre post s :
  run (init c0) (pre ++ Resume :: post) = Some s →
  ∃ s1 c, run (init c0) pre = Some s1 ∧ phase s1 = AwaitRemoved c ∧
    CacheEntryRemoved ∈ pre ∧ unsubscribes s1 = established pre ∧
    invoked (effects s1) = [] ∧
    phase s = phase (teardown c s1) ∧
    invoked (effects s) = invoked (effects (teardown c s1)).
Proof.
  intros Hrun. apply run_app_Some in Hrun as (s1 & Hpre & Hrun).
  apply run_cons_Some in Hrun as (s2 & Hres & Hpost).
  pose proof (run_coherent _ _ _ (init_coherent c0) Hpre) as (_ & Hq & _).
  simpl in Hres. destruct (phase s1) as [| |c|] eqn:Hp; try done.
  destruct (removed s1) eqn:Hr; [|done]. injection Hres as <-.
  exists s1, c. split; [done|]. split; [done|].
  split. { by destruct (run_removed _ _ _ Hpre Hr). }
  split. { by rewrite (run_unsubscribes _ _ _ Hpre). }
  split. { apply Hq. intros c'. by rewrite Hp. }
  destruct (teardown_settles c s1) as [c' Hc'].
  destruct (run_settled _ _ _ _ Hc' Hpost) as [-> ->]. done.
Qed.

(** ** Failures *)




Lemma step_load_failed s ev s' :
  load_failed s → step s ev = Some s' → load_failed s'.
Proof.
  intros (Ha & Hu & He & Hp) Hs. unfold load_failed.
  step_inv Hs; simpl in *; try (by rewrite Ha in * );
    try (by destruct Hp as [?|[? ?]]; congruence).
  - destruct Hp as [Hp|[_ ?]]; [auto 10|done].
  - unfold teardown. rewrite Hu. simpl.
    destruct Hp as [Hp|[Hp _]]; [|congruence].
    assert (pending = Throw LoadRejected) as -> by congruence. auto 10.
Qed.


(** * The claims *)

(** C3.  Once [cacheDataLoaded] has resolved, the subscribe calls made are
    exactly one per descriptor, of shape (command, service, [callback of
    that descriptor]), in descriptor order -- whatever events came before
    and whatever acknowledgments, rejections, pushes or signals follow,
    in whatever order. *)
Theorem activation_issues_one_call_per_descriptor c0 pre post s :
  handler c0 (pre ++ CacheDataLoaded :: post) = Some s →
  calls (effects s) = expected_calls invalidates ∧
  length (calls (effects s)) = length invalidates ∧
  ∀ i inv, invalidates !! i = Some inv →
    calls (effects s) !! i = Some (command inv, service inv, i).
Proof.
  unfold onCacheEntryAddedInvalidate.
  intros Hrun. apply run_app_Some in Hrun as (s1 & Hpre & Hrun).
  apply run_cons_Some in Hrun as (s2 & Hload & Hpost).
  pose proof (run_coherent _ _ _ (init_coherent c0) Hpre) as (Hidle & _ & _).
  simpl in Hload. destruct (phase s1) eqn:Hp; try done.
  injection Hload as <-. destruct (Hidle eq_refl) as (_ & _ & He).
  assert (phase (activate invalidates s1) ≠ AwaitLoaded) as Hne.
  { simpl. by case_match. }
  destruct (run_calls _ _ _ Hne Hpost) as [_ Hcalls].
  assert (calls (effects s) = expected_calls invalidates) as ->.
  { rewrite Hcalls. simpl. by rewrite He, app_nil_l, calls_subscribe_calls. }
  split; [done|]. split.
  - unfold expected_calls. by rewrite length_imap.
  - intros i inv Hi. unfold expected_calls.
    rewrite list_lookup_imap, Hi. done.
Qed.

(** The sweep of line 64.  When the handler resumes after the removed
    signal, every handle recorded by then -- one per response that carried
    one, in resolution order -- is invoked exactly once (the handles being
    quiet), nothing having been invoked before; this includes handles
    whose response arrived while the handler was already waiting in
    [finally]. *)
Theorem teardown_closes_recorded_handles c0 pre post s :
  handler c0 (pre ++ Resume :: post) = Some s →
  Forall quiet (established pre) →
  invoked (effects s) = established pre ∧
  CacheEntryRemoved ∈ pre ∧
  ∀ s1, handler c0 pre = Some s1 → invoked (effects s1) = [].
Proof.
  unfold onCacheEntryAddedInvalidate.
  intros Hrun Hq.
  destruct (run_through_teardown _ _ _ _ Hrun)
    as (s1 & c & Hpre & Hp & Hrem & Hu & Hnone & _ & Hinv).
  rewrite <- Hu in Hq.
  destruct (teardown_quiet c s1 Hq) as (_ & He & _).
  split; [|split; [done|]].
  - by rewrite Hinv, He, invoked_app, Hnone, invoked_unsubs, app_nil_l.
  - intros s1' Hpre'. congruence.
Qed.

(** C10.  Line 64 invokes the recorded handles in the order in which the
    responses that carried them arrived; when one of them throws, it is
    the last one invoked and its exception is the handler's outcome. *)
Theorem teardown_in_order_until_throw c0 pre post s :
  handler c0 (pre ++ Resume :: post) = Some s →
  (Forall quiet (established pre) → invoked (effects s) = established pre) ∧
  (∀ hs1 h hs2,
     established pre = hs1 ++ h :: hs2 → Forall quiet hs1 → throws h = true →
     invoked (effects s) = hs1 ++ [h] ∧
     phase s = Settled (Throw (UnsubscribeThrew h))).
Proof.
  unfold onCacheEntryAddedInvalidate.
  intros Hrun.
  destruct (run_through_teardown _ _ _ _ Hrun)
    as (s1 & c & Hpre & Hp & Hrem & Hu & Hnone & Hph & Hinv).
  split.
  - intros Hq. rewrite <- Hu in Hq.
    destruct (teardown_quiet c s1 Hq) as (_ & He & _).
    by rewrite Hinv, He, invoked_app, Hnone, invoked_unsubs, app_nil_l.
  - intros hs1 h hs2 Hsplit Hq Hh. rewrite <- Hu in Hsplit.
    destruct (teardown_throws c s1 _ _ _ Hsplit Hq Hh) as [Hp' He].
    split; [|congruence].
    by rewrite Hinv, He, invoked_app, Hnone, invoked_unsubs, app_nil_l.
Qed.



(** C8.  After [cacheDataLoaded] has rejected the handler has no effect
    at all -- no subscribe call, no unsubscribe call -- in any later
    state; it waits in [finally] with the rejection pending, resumes only
    after the removed signal, and then settles with that rejection. *)
Theorem load_rejection_skips_activation c0 pre post s :
  handler c0 (pre ++ CacheDataRejected :: post) = Some s →
  calls (effects s) = [] ∧ invoked (effects s) = [] ∧
  (phase s = AwaitRemoved (Throw LoadRejected) ∨
   phase s = Settled (Throw LoadRejected) ∧ CacheEntryRemoved ∈ pre ++ post) ∧
  (removed s = false → step s Resume = None) ∧
  (phase s = AwaitRemoved (Throw LoadRejected) →
   ∃ s2, run s (finish s) = Some s2 ∧
     phase s2 = Settled (Throw LoadRejected) ∧ effects s2 = []).
Proof.
  unfold onCacheEntryAddedInvalidate.
  intros Hrun. pose proof Hrun as Hall.
  apply run_app_Some in Hrun as (s1 & Hpre & Hrun).
  apply run_cons_Some in Hrun as (s2 & Hrej & Hpost).
  pose proof (run_coherent _ _ _ (init_coherent c0) Hpre) as (Hidle & _ & _).
  simpl in Hrej. destruct (phase s1) eqn:Hp; try done.
  injection Hrej as <-. destruct (Hidle eq_refl) as (Ha & Hu & He).
  assert (load_failed s) as (Ha' & Hu' & He' & Hp').
  { eapply (run_preserves load_failed); [apply step_load_failed| |exact Hpost].
    unfold load_failed. simpl. auto. }
  rewrite He'. split; [done|]. split; [done|]. split; [|split].
  - destruct Hp' as [?|[? Hr]]; [by left|right]. split; [done|].
    destruct (run_removed _ _ _ Hall Hr) as [?|Hin]; [done|].
    apply elem_of_app in Hin as [?|Hin]; apply elem_of_app; [by left|].
    apply elem_of_cons in Hin as [?|?]; [done|by right].
  - apply resume_waits.
  - intros Hw. eexists. split; [by apply finish_runs|].
    unfold teardown. destruct (removed s); simpl; rewrite Hu'; simpl; by rewrite ?Hw.
Qed.

(** ** Push events *)

Lemma updates_app log1 log2 : updates (log1 ++ log2) = updates log1 ++ updates log2.
Proof. apply omap_app. Qed.

Lemma dispatched_app log1 log2 :
  dispatched (log1 ++ log2) = dispatched log1 ++ dispatched log2.
Proof. apply omap_app. Qed.

(** A callback that has been handed to [rtkQuery] can be invoked. *)
Lemma step_push s i inv payload :
  invalidates !! i = Some inv → is_Some (activations s !! i) →
  step s (Push i payload) = Some (pushHandler args i inv payload s).
Proof. intros Hi [a Ha]. simpl. by rewrite Hi, Ha. Qed.

(** The effects of an accepted push, spelled out. *)
Lemma applyPush_spec i inv payload s :
  let s' := applyPush args i inv payload s in
  cached s' =
    match onUpdate inv with
    | Some f => f (cached s) payload args
    | None => cached s
    end ∧
  effects s' = effects s ++
    match onUpdate inv with
    | Some _ => [EUpdate i payload]
    | None => []
    end ++
    match endpoint inv with
    | Some e => [EDispatch (initiate e args false true)]
    | None => []
    end.
Proof.
  unfold applyPush, updateCachedData, dispatch, emit.
  destruct (onUpdate inv), (endpoint inv); simpl;
    by rewrite <- ?app_assoc, ?app_nil_r.
Qed.

(** C2.  With a [skip] predicate present, a push is applied exactly when
    [skip(payload, args)] is true: then the cached value and the log
    receive the descriptor's effects; when it is false the whole state is
    left as it was -- same cached value, nothing dispatched. *)
Theorem skip_gates_the_push s i inv sk payload :
  invalidates !! i = Some inv → skip inv = Some sk →
  is_Some (activations s !! i) →
  ∃ s', step s (Push i payload) = Some s' ∧
    (sk payload args = false → s' = s) ∧
    (sk payload args = true →
       cached s' =
         match onUpdate inv with
         | Some f => f (cached s) payload args
         | None => cached s
         end ∧
       effects s' = effects s ++
         match onUpdate inv with
         | Some _ => [EUpdate i payload]
         | None => []
         end ++
         match endpoint inv with
         | Some e => [EDispatch (initiate e args false true)]
         | None => []
         end).
Proof.
  intros Hi Hsk Ha. eexists. split; [by apply step_push|].
  unfold pushHandler, discards. rewrite Hsk. split; intros ->; simpl.
  - done.
  - apply applyPush_spec.
Qed.

(** One accepted push on a descriptor with [onUpdate]. *)
Lemma pushHandler_onUpdate i inv f payload s :
  onUpdate inv = Some f → discards args inv payload = false →
  let s' := pushHandler args i inv payload s in
  cached s' = f (cached s) payload args ∧
  updates (effects s') = updates (effects s) ++ [(i, payload)] ∧
  activations s' = activations s.
Proof.
  intros Hf Hd. unfold pushHandler. rewrite Hd.
  destruct (applyPush_spec i inv payload s) as [Hc He].
  rewrite Hf in Hc, He. simpl. split; [done|]. split.
  - rewrite He, updates_app. f_equal. simpl. by destruct (endpoint inv).
  - unfold applyPush, updateCachedData, dispatch, emit. rewrite Hf.
    by destruct (endpoint inv).
Qed.

Lemma run_pushes i inv f payloads s :
  invalidates !! i = Some inv → onUpdate inv = Some f →
  Forall (λ p, discards args inv p = false) payloads →
  is_Some (activations s !! i) →
  ∃ s', run s (Push i <$> payloads) = Some s' ∧
    cached s' = foldl (λ d p, f d p args) (cached s) payloads ∧
    updates (effects s') = updates (effects s) ++ (pair i <$> payloads) ∧
    activations s' = activations s.
Proof.
  intros Hi Hf Hacc. revert s.
  induction Hacc as [|p ps Hp _ IH]; intros s Ha.
  - exists s. simpl. by rewrite app_nil_r.
  - destruct (pushHandler_onUpdate i inv f p s Hf Hp) as (Hc & Hu & Hact).
    destruct (IH (pushHandler args i inv p s))
      as (s' & Hrun & Hc' & Hu' & Hact').
    { by rewrite Hact. }
    exists s'. split.
    { rewrite fmap_cons. apply run_cons_Some. eexists.
      split; [by apply step_push|done]. }
    rewrite Hc', Hu', Hc, Hu, Hact', Hact. simpl.
    by rewrite <- app_assoc.
Qed.

(** C4.  Accepted pushes on a descriptor with [onUpdate] run the recipe
    once each, in arrival order: the update log grows by one entry per
    payload, in order, and after every prefix of the pushes the cached
    value is the fold of [onUpdate] over that prefix. *)
Theorem onUpdate_runs_once_per_push_in_order s i inv f payloads :
  invalidates !! i = Some inv → onUpdate inv = Some f →
  Forall (λ p, discards args inv p = false) payloads →
  is_Some (activations s !! i) →
  ∃ s', run s (Push i <$> payloads) = Some s' ∧
    updates (effects s') = updates (effects s) ++ (pair i <$> payloads) ∧
    cached s' = foldl (λ d p, f d p args) (cached s) payloads ∧
    ∀ k, ∃ sk, run s (Push i <$> take k payloads) = Some sk ∧
      cached sk = foldl (λ d p, f d p args) (cached s) (take k payloads).
Proof.
  intros Hi Hf Hacc Ha.
  destruct (run_pushes i inv f payloads s Hi Hf Hacc Ha)
    as (s' & Hrun & Hc & Hu & _).
  exists s'. repeat split; try done.
  intros k.
  destruct (run_pushes i inv f (take k payloads) s Hi Hf) as (sk & ? & ? & _);
    [by apply Forall_take|done|eauto].
Qed.

(** C5, as the code has it.  An accepted push on a descriptor with
    [endpoint] dispatches exactly one [initiate(args, {subscribe: false,
    forceRefetch: true})] of that endpoint; the cached value is left alone
    provided the descriptor has no [onUpdate]. *)
Theorem endpoint_push_refetches s i inv e payload :
  invalidates !! i = Some inv → endpoint inv = Some e →
  discards args inv payload = false →
  is_Some (activations s !! i) →
  ∃ s', step s (Push i payload) = Some s' ∧
    dispatched (effects s') =
      dispatched (effects s) ++
        [{| act_endpoint := e; act_args := args;
            subscribe := false; forceRefetch := true |}] ∧
    (onUpdate inv = None →
       cached s' = cached s ∧ updates (effects s') = updates (effects s)).
Proof.
  intros Hi He Hd Ha. eexists. split; [by apply step_push|].
  unfold pushHandler. rewrite Hd.
  destruct (applyPush_spec i inv payload s) as [Hc Hl].
  rewrite He in Hl. split.
  - rewrite Hl, !dispatched_app. simpl. by destruct (onUpdate inv).
  - intros Hn. rewrite Hn in Hc, Hl. split; [done|].
    rewrite Hl, !updates_app. simpl. by rewrite app_nil_r.
Qed.

(** C9.  A descriptor carrying both [onUpdate] and [endpoint] is accepted
    as it is: an accepted push first runs the recipe on the cached value
    and then dispatches the forced refetch, and does nothing else. *)
Theorem both_triggers_apply_in_order s i inv f e payload :
  invalidates !! i = Some inv →
  onUpdate inv = Some f → endpoint inv = Some e →
  discards args inv payload = false →
  is_Some (activations s !! i) →
  ∃ s', step s (Push i payload) = Some s' ∧
    cached s' = f (cached s) payload args ∧
    effects s' = effects s ++
      [EUpdate i payload; EDispatch (initiate e args false true)].
Proof.
  intros Hi Hf He Hd Ha. eexists. split; [by apply step_push|].
  unfold pushHandler. rewrite Hd.
  destruct (applyPush_spec i inv payload s) as [Hc Hl].
  rewrite Hf in Hc. by rewrite Hf, He in Hl.
Qed.

(** * Further properties of the handler *)

(** Only the resumption of line 63 invokes handles. *)
Lemma step_invoked_other s ev s' :
  step s ev = Some s' → ev ≠ Resume →
  invoked (effects s') = invoked (effects s).
Proof.
  intros Hs Hne. step_inv Hs; simpl; try done.
  - by rewrite invoked_app, invoked_subscribe_calls, app_nil_r.
  - by destruct (pushHandler_frame i i0 payload s) as (_ & _ & _ & _ & _ & ->).
Qed.

Lemma step_settled_removed s ev s' :
  (∀ c, phase s = Settled c → removed s = true) →
  step s ev = Some s' → ∀ c, phase s' = Settled c → removed s' = true.
Proof.
  intros Hinv Hs c Hp. step_inv Hs; simpl in *;
    try (by repeat case_match); try (by eapply Hinv).
  - destruct (phase s) eqn:E; repeat case_match; simplify_eq.
    by eapply Hinv.
  - destruct (phase s) eqn:E; simplify_eq. by eapply Hinv.
  - unfold teardown. by case_match.
  - destruct (pushHandler_frame i i0 payload s) as (Hp' & -> & _).
    rewrite Hp' in Hp. by eapply Hinv.
Qed.

(** Before the removed signal the handler has not settled and has not
    invoked any handle, whatever else has happened. *)
Theorem nothing_torn_down_before_removal c0 tr s :
  handler c0 tr = Some s → CacheEntryRemoved ∉ tr →
  unsettled s ∧ invoked (effects s) = [].
Proof.
  unfold onCacheEntryAddedInvalidate. intros Hrun Hnot.
  assert (unsettled s) as Hu.
  { intros c Hp.
    assert (removed s = true) as Hr.
    { eapply (run_preserves (λ s, ∀ c, phase s = Settled c → removed s = true));
        [apply step_settled_removed| |done|done]. done. }
    by destruct (run_removed _ _ _ Hrun Hr). }
  split; [done|].
  by destruct (run_coherent _ _ _ (init_coherent c0) Hrun) as (_ & Hq & _); auto.
Qed.

Lemma step_invoked_prefix s ev s' :
  coherent s → invoked (effects s) `prefix_of` unsubscribes s →
  step s ev = Some s' →
  invoked (effects s') `prefix_of` unsubscribes s'.
Proof.
  intros (_ & Hq & _) Hpre Hs.
  rewrite (step_unsubscribes _ _ _ Hs).
  destruct ev; try (rewrite (step_invoked_other _ _ _ Hs); [|done];
                    by apply prefix_app_r).
  simpl in Hs. destruct (phase s) eqn:Hp; try done.
  destruct (removed s); [|done]. injection Hs as <-.
  unfold established. simpl. rewrite app_nil_r. unfold teardown.
  destruct (forEach_appends (unsubscribes s) (effects s))
    as (hs1 & hs2 & Hsplit & Hlog).
  destruct (forEach_unsubscribe _ _) as [log err]. simpl in *. subst log.
  rewrite invoked_app, invoked_unsubs, Hq by (intros c; by rewrite Hp).
  simpl. rewrite Hsplit. by apply prefix_app_r.
Qed.

(** At every moment the handles invoked so far are an initial segment of
    the array: nothing is invoked that was not recorded, and no recorded
    entry is invoked twice. *)
Theorem invoked_is_prefix_of_recorded c0 tr s :
  handler c0 tr = Some s →
  unsubscribes s = established tr ∧
  invoked (effects s) `prefix_of` established tr.
Proof.
  unfold onCacheEntryAddedInvalidate. intros Hrun.
  assert (coherent s ∧ invoked (effects s) `prefix_of` unsubscribes s)
    as [_ Hpre].
  { eapply (run_preserves
              (λ s, coherent s ∧ invoked (effects s) `prefix_of` unsubscribes s));
      [|split; [apply init_coherent|done]|done].
    intros s1 ev s2 [Hc Hp] Hs. split; [by eapply step_coherent|].
    by eapply step_invoked_prefix. }
  by rewrite (run_unsubscribes _ _ _ Hrun) in *.
Qed.

(** ** While calls are pending *)

Lemma forallb_is_fulfilled (acts : list Activation) :
  forallb is_fulfilled acts = true → Forall (λ a, a = Fulfilled) acts.
Proof.
  induction acts as [|a acts IH]; simpl; [by constructor|].
  intros [Ha Hacts]%andb_prop. constructor; [by destruct a|by apply IH].
Qed.

Lemma all_fulfilled_not_pending (acts : list Activation) i :
  Forall (λ a, a = Fulfilled) acts → acts !! i ≠ Some Pending.
Proof.
  intros Hall Hi. by pose proof (Forall_lookup_1 _ _ _ _ Hall Hi).
Qed.

(** Without a failure the handler leaves [Promise.all] only when every
    call has been fulfilled. *)
Lemma step_awaits_all s ev s' :
  is_failure ev = false →
  (phase s = AwaitLoaded ∨ phase s = AwaitAll) ∨
    Forall (λ a, a = Fulfilled) (activations s) →
  step s ev = Some s' →
  (phase s' = AwaitLoaded ∨ phase s' = AwaitAll) ∨
    Forall (λ a, a = Fulfilled) (activations s').
Proof.
  intros Hf Hinv Hs. step_inv Hs; simpl in *; try done.
  - destruct invalidates; simpl; [by right|by left; right].
  - destruct Hinv as [[Hp|Hp]|Hall].
    + rewrite Hp. auto.
    + rewrite Hp. destruct (forallb _ _) eqn:E; [|auto].
      right. by apply forallb_is_fulfilled.
    + by destruct (all_fulfilled_not_pending _ i Hall).
  - unfold teardown. case_match. simpl.
    destruct Hinv as [[Hp|Hp]|Hall]; [congruence|congruence|by right].
  - by destruct (pushHandler_frame i i0 payload s) as (-> & _ & -> & _).
Qed.

Lemma run_awaits_all tr s s' :
  Forall (λ ev, is_failure ev = false) tr →
  (phase s = AwaitLoaded ∨ phase s = AwaitAll) ∨
    Forall (λ a, a = Fulfilled) (activations s) →
  run s tr = Some s' →
  (phase s' = AwaitLoaded ∨ phase s' = AwaitAll) ∨
    Forall (λ a, a = Fulfilled) (activations s').
Proof.
  intros Hf. revert s. induction Hf as [|ev tr Hev _ IH]; intros s Hinv Hrun.
  - by injection Hrun as <-.
  - apply run_cons_Some in Hrun as (s1 & H1 & Hrun).
    eapply IH; [|done]. by eapply step_awaits_all.
Qed.

Lemma pending_in_step c0 tr s i :
  run (init c0) tr = Some s →
  Forall (λ ev, is_failure ev = false) tr →
  activations s !! i = Some Pending → phase s = AwaitAll.
Proof.
  intros Hrun Hnf Hi.
  destruct (run_coherent _ _ _ (init_coherent c0) Hrun) as (Hidle & _ & _).
  destruct (run_awaits_all tr (init c0) s Hnf) as [[Hp|Hp]|Hall];
    [by left; left|done| |done|].
  - destruct (Hidle Hp) as [Ha _]. by rewrite Ha in Hi.
  - by destruct (all_fulfilled_not_pending _ i Hall).
Qed.

(** As long as one subscribe call is unsettled and nothing has been
    rejected, the handler stays at [Promise.all] (line 31): it has not
    reached [finally] and has invoked no handle -- also when the entry has
    already been removed and other calls have handed out handles. *)
Theorem pending_call_holds_teardown_back c0 tr s i :
  handler c0 tr = Some s →
  Forall (λ ev, is_failure ev = false) tr →
  activations s !! i = Some Pending →
  phase s = AwaitAll ∧ invoked (effects s) = [] ∧ step s Resume = None.
Proof.
  unfold onCacheEntryAddedInvalidate. intros Hrun Hnf Hi.
  pose proof (pending_in_step _ _ _ _ Hrun Hnf Hi) as Hp.
  destruct (run_coherent _ _ _ (init_coherent c0) Hrun) as (_ & Hq & _).
  split; [done|]. split.
  - apply Hq. intros c. by rewrite Hp.
  - simpl. by rewrite Hp.
Qed.

(** ** The first rejection *)

Lemma forEach_error hs log e :
  (forEach_unsubscribe hs log).2 = Some e →
  ∃ h, e = UnsubscribeThrew h ∧ throws h = true ∧ h ∈ hs.
Proof.
  revert log. induction hs as [|h hs IH]; intros log; simpl; [done|].
  destruct (throws h) eqn:Hh; simpl.
  - intros [= <-]. exists h. split; [done|]. split; [done|]. apply list_elem_of_here.
  - intros He. destruct (IH _ He) as (h' & ? & ? & ?).
    exists h'. split; [done|]. split; [done|]. by apply list_elem_of_further.
Qed.

Lemma step_outcome_kept s ev s' c :
  (phase s = AwaitRemoved c ∨ phase s = Settled c ∨
     ∃ h, phase s = Settled (Throw (UnsubscribeThrew h)) ∧ throws h = true) →
  step s ev = Some s' →
  phase s' = AwaitRemoved c ∨ phase s' = Settled c ∨
    ∃ h, phase s' = Settled (Throw (UnsubscribeThrew h)) ∧ throws h = true.
Proof.
  intros Hinv Hs.
  assert (phase s ≠ AwaitLoaded ∧ phase s ≠ AwaitAll) as [Hn1 Hn2].
  { destruct Hinv as [Hp|[Hp|(h & Hp & _)]]; by rewrite Hp. }
  step_inv Hs; simpl in *; try done.
  - by destruct (phase s).
  - by destruct (phase s).
  - unfold teardown.
    destruct (forEach_unsubscribe (unsubscribes s) (effects s)) as [log err] eqn:E.
    simpl. destruct err as [e|].
    + destruct (forEach_error (unsubscribes s) (effects s) e) as (h & -> & Hh & _).
      { by rewrite E. }
      right; right. eauto.
    + destruct Hinv as [Hp|[Hp|(h & Hp & _)]]; simplify_eq. by right; left.
  - by destruct (pushHandler_frame i i0 payload s) as (-> & _).
Qed.

(** The first rejected subscribe call decides the outcome: once call [i]
    has rejected with nothing failed before, the handler waits in
    [finally] with that rejection and settles with it, whatever is
    acknowledged or rejected later -- unless a handle throws during
    teardown, whose exception then replaces it. *)
Theorem first_rejection_is_the_outcome c0 pre i post s :
  handler c0 (pre ++ Reject i :: post) = Some s →
  Forall (λ ev, is_failure ev = false) pre →
  phase s = AwaitRemoved (Throw (SubscribeRejected i)) ∨
  phase s = Settled (Throw (SubscribeRejected i)) ∨
  ∃ h, phase s = Settled (Throw (UnsubscribeThrew h)) ∧ throws h = true.
Proof.
  unfold onCacheEntryAddedInvalidate. intros Hrun Hnf.
  apply run_app_Some in Hrun as (s0 & Hpre & Hrun).
  apply run_cons_Some in Hrun as (s1 & Hrej & Hpost).
  simpl in Hrej. destruct (activations s0 !! i) as [[| |]|] eqn:Hi; try done.
  injection Hrej as <-.
  pose proof (pending_in_step _ _ _ _ Hpre Hnf Hi) as Hp.
  eapply (run_preserves (λ s,
            phase s = AwaitRemoved (Throw (SubscribeRejected i)) ∨
            phase s = Settled (Throw (SubscribeRejected i)) ∨
            ∃ h, phase s = Settled (Throw (UnsubscribeThrew h)) ∧
                 throws h = true)); [| |exact Hpost].
  - intros sa ev sb. apply step_outcome_kept.
  - left. simpl. by rewrite Hp.
Qed.

(** ** The cached value *)

Lemma dispatched_subscribe_calls : dispatched (subscribe_calls invalidates) = [].
Proof. by apply omap_imap_None. Qed.

Lemma dispatched_unsubs hs : dispatched (EUnsub <$> hs : list Eff) = [].
Proof. by apply omap_fmap_None. Qed.

Lemma step_replay s ev s' :
  step s ev = Some s' →
  cached s' = replay args invalidates (cached s) [ev] ∧
  dispatched (effects s') =
    dispatched (effects s) ++ refetches args invalidates [ev].
Proof.
  intros Hs. unfold replay, refetches.
  step_inv Hs; simpl; rewrite ?app_nil_r; try done.
  - by rewrite dispatched_app, dispatched_subscribe_calls, app_nil_r.
  - unfold teardown.
    destruct (forEach_appends (unsubscribes s) (effects s))
      as (hs1 & hs2 & _ & Hlog).
    destruct (forEach_unsubscribe _ _) as [log err]. simpl in *. subst log.
    by rewrite dispatched_app, dispatched_unsubs, app_nil_r.
  - rewrite H. unfold pushHandler, push_value.
    destruct (discards args i0 payload); [by rewrite app_nil_r|].
    destruct (applyPush_spec i i0 payload s) as [-> ->].
    split; [done|]. rewrite !dispatched_app.
    destruct (onUpdate i0), (endpoint i0); simpl; by rewrite ?app_nil_r.
Qed.

Lemma run_replay tr s s' :
  run s tr = Some s' →
  cached s' = replay args invalidates (cached s) tr ∧
  dispatched (effects s') =
    dispatched (effects s) ++ refetches args invalidates tr.
Proof.
  revert s. induction tr as [|ev tr IH]; intros s Hrun.
  - injection Hrun as <-. by rewrite app_nil_r.
  - apply run_cons_Some in Hrun as (s1 & H1 & Hrun).
    destruct (step_replay _ _ _ H1) as [Hc Hd].
    destruct (IH _ Hrun) as [-> ->]. rewrite Hc, Hd.
    split; [done|]. rewrite <- app_assoc. f_equal.
    unfold refetches. simpl. by rewrite app_nil_r.
Qed.

(** The cached value and the refetches dispatched depend on the pushes
    alone: after any run the value is the initial one with the pushes of
    the run applied in arrival order, and the dispatched actions are those
    of the pushes, in order.  Loading, acknowledgments, rejections, the
    removal and the teardown change neither. *)
Theorem cache_is_driven_by_pushes_alone c0 tr s :
  handler c0 tr = Some s →
  cached s = replay args invalidates c0 tr ∧
  dispatched (effects s) = refetches args invalidates tr.
Proof.
  unfold onCacheEntryAddedInvalidate. intros Hrun.
  by destruct (run_replay _ _ _ Hrun) as [-> ->].
Qed.

(** ** Every call acknowledged *)

Lemma pending_not_all_fulfilled (acts : list Activation) i :
  acts !! i = Some Pending → forallb is_fulfilled acts = false.
Proof.
  intros Hi. destruct (forallb is_fulfilled acts) eqn:E; [|done].
  by destruct (all_fulfilled_not_pending acts i (forallb_is_fulfilled _ E)).
Qed.

Lemma all_fulfilled_forallb (acts : list Activation) :
  (∀ j, j < length acts → acts !! j = Some Fulfilled) →
  forallb is_fulfilled acts = true.
Proof.
  induction acts as [|a acts IH]; intros Hall; simpl; [done|].
  pose proof (Hall 0 ltac:(simpl; lia)) as H0. simpl in H0.
  injection H0 as ->. simpl. apply IH. intros j Hj.
  apply (Hall (S j)). simpl. lia.
Qed.

Lemma activate_in_step s : in_step (activate invalidates s).
Proof.
  unfold in_step. simpl. destruct invalidates; simpl; done.
Qed.

(** Acknowledging pending calls one after the other. *)
Lemma run_acknowledge r l s :
  in_step s → NoDup l →
  (∀ i, i ∈ l → activations s !! i = Some Pending) →
  ∃ s', run s (acknowledge r l) = Some s' ∧ in_step s' ∧
    (∀ j, activations s' !! j =
            if decide (j ∈ l) then Some Fulfilled else activations s !! j) ∧
    length (activations s') = length (activations s) ∧
    unsubscribes s' = unsubscribes s ++ omap (λ i, data (r i)) l ∧
    effects s' = effects s ∧ removed s' = removed s ∧ cached s' = cached s.
Proof.
  intros Hin Hnd. revert s Hin.
  induction Hnd as [|i l Hi Hnd IH]; intros s Hin Hpend.
  - exists s. split; [done|]. split; [done|]. split.
    { intros j. by rewrite decide_False by apply not_elem_of_nil. }
    simpl. by rewrite app_nil_r.
  - assert (activations s !! i = Some Pending) as Hpi
      by (apply Hpend, list_elem_of_here).
    assert (i < length (activations s)) as Hlt by by eapply lookup_lt_Some.
    set (s1 := record_response i (r i) s).
    assert (in_step s1) as Hin1.
    { unfold in_step in *. simpl.
      rewrite (pending_not_all_fulfilled _ _ Hpi) in Hin. by rewrite Hin. }
    destruct (IH s1 Hin1) as (s' & Hrun & Hin' & Hacts & Hlen & Hu & He & Hr & Hc).
    { intros j Hj. simpl. rewrite list_lookup_insert_ne by (intros ->; done).
      by apply Hpend, list_elem_of_further. }
    exists s'. split.
    { unfold acknowledge. rewrite fmap_cons. apply run_cons_Some.
      exists s1. split; [|done]. simpl. by rewrite Hpi. }
    split; [done|]. split; [|split; [|split]].
    + intros j. rewrite Hacts. simpl.
      destruct (decide (j = i)) as [->|Hne].
      * rewrite decide_False by done.
        rewrite decide_True by apply list_elem_of_here.
        by apply list_lookup_insert_eq.
      * rewrite list_lookup_insert_ne by done.
        destruct (decide (j ∈ l)) as [Hj|Hj].
        -- by rewrite decide_True by by apply list_elem_of_further.
        -- rewrite decide_False; [done|].
           by intros [?|?]%elem_of_cons.
    + rewrite Hlen. simpl. by rewrite length_insert.
    + rewrite Hu. simpl. destruct (data (r i)); [|done].
      by rewrite <- app_assoc.
    + by rewrite He, Hr, Hc.
Qed.

(** When every subscribe call is acknowledged -- in any order, the entry
    being removed at any point in between -- the handler runs to the end:
    it settles normally, having invoked each handle handed out exactly
    once in acknowledgment order (the handles being quiet) and leaving the
    cached value as it was. *)
Theorem all_acknowledged_in_any_order c0 r order1 order2 :
  order1 ++ order2 ≡ₚ seq 0 (length invalidates) →
  Forall quiet (omap (λ i, data (r i)) (order1 ++ order2)) →
  ∃ s,
    handler c0
      (CacheDataLoaded :: acknowledge r order1 ++
       CacheEntryRemoved :: acknowledge r order2 ++ [Resume]) = Some s ∧
    phase s = Settled Normal ∧
    invoked (effects s) = omap (λ i, data (r i)) (order1 ++ order2) ∧
    calls (effects s) = expected_calls invalidates ∧
    cached s = c0.
Proof.
  unfold onCacheEntryAddedInvalidate. intros Hperm Hq.
  assert (NoDup (order1 ++ order2)) as Hnd.
  { rewrite Hperm. apply NoDup_seq. }
  apply NoDup_app in Hnd as (Hnd1 & Hdisj & Hnd2).
  assert (∀ i, i ∈ order1 ++ order2 → i < length invalidates) as Hrange.
  { intros i Hi. rewrite Hperm in Hi. apply elem_of_seq in Hi. lia. }
  set (s0 := activate invalidates (init c0)).
  destruct (run_acknowledge r order1 s0 (activate_in_step _) Hnd1)
    as (s1 & Hrun1 & Hin1 & Hacts1 & Hlen1 & Hu1 & He1 & Hr1 & Hc1).
  { intros i Hi. simpl. apply lookup_replicate_2, Hrange.
    apply elem_of_app. by left. }
  set (s2 := {| phase := phase s1; removed := true;
                activations := activations s1;
                unsubscribes := unsubscribes s1;
                cached := cached s1; effects := effects s1 |}).
  destruct (run_acknowledge r order2 s2 Hin1 Hnd2)
    as (s3 & Hrun3 & Hin3 & Hacts3 & Hlen3 & Hu3 & He3 & Hr3 & Hc3).
  { intros i Hi. simpl. rewrite Hacts1.
    rewrite decide_False by (intros Hi1; by apply (Hdisj i)).
    simpl. apply lookup_replicate_2, Hrange. apply elem_of_app. by right. }
  assert (phase s3 = AwaitRemoved Normal) as Hp3.
  { unfold in_step in Hin3. rewrite Hin3, all_fulfilled_forallb; [done|].
    intros j Hj. rewrite Hlen3 in Hj. simpl in Hj. rewrite Hlen1 in Hj.
    simpl in Hj. rewrite length_replicate in Hj.
    rewrite Hacts3. destruct (decide (j ∈ order2)) as [|Hn2]; [done|].
    simpl. rewrite Hacts1. rewrite decide_True; [done|].
    assert (j ∈ order1 ++ order2) as [?|?]%elem_of_app; [|done|done].
    rewrite Hperm. apply elem_of_seq. lia. }
  assert (unsubscribes s3 = omap (λ i, data (r i)) (order1 ++ order2)) as Hu.
  { rewrite Hu3. simpl. rewrite Hu1. simpl. by rewrite omap_app. }
  rewrite <- Hu in Hq.
  destruct (teardown_quiet Normal s3 Hq) as (Hpt & Het & _).
  exists (teardown Normal s3). split.
  { apply run_cons_Some. exists s0. split; [done|].
    apply run_app_Some. exists s1. split; [done|].
    apply run_cons_Some. exists s2. split.
    { simpl. by rewrite Hr1. }
    apply run_app_Some. exists s3. split; [done|].
    simpl. by rewrite Hp3, Hr3. }
  split; [done|].
  assert (effects s3 = subscribe_calls invalidates) as Heff.
  { rewrite He3. simpl. by rewrite He1. }
  rewrite Het, Heff, invoked_app, calls_app, invoked_subscribe_calls,
    invoked_unsubs, calls_subscribe_calls, calls_unsubs, app_nil_r.
  split; [by rewrite Hu|]. split; [done|].
  unfold teardown. case_match. simpl. rewrite Hc3. simpl. by rewrite Hc1.
Qed.

(** ** After the teardown *)

(** What line 64 invokes is decided when it runs: only handles of
    responses that arrived before it.  A response arriving afterwards is
    still recorded in the array, and its handle is never invoked. *)
Theorem acknowledged_after_teardown_is_not_invoked c0 pre post s :
  handler c0 (pre ++ Resume :: post) = Some s →
  invoked (effects s) `prefix_of` established pre ∧
  unsubscribes s = established pre ++ established post.
Proof.
  unfold onCacheEntryAddedInvalidate. intros Hrun.
  pose proof (run_unsubscribes _ _ _ Hrun) as Hall.
  destruct (run_through_teardown _ _ _ _ Hrun)
    as (s1 & c & Hpre & Hp & Hrem & Hu & Hnone & _ & Hinv).
  split.
  - rewrite Hinv. unfold teardown.
    destruct (forEach_appends (unsubscribes s1) (effects s1))
      as (hs1 & hs2 & Hsplit & Hlog).
    destruct (forEach_unsubscribe _ _) as [log err]. simpl in *. subst log.
    rewrite invoked_app, Hnone, invoked_unsubs, <- Hu, Hsplit. simpl.
    by apply prefix_app_r.
  - rewrite Hall. simpl. unfold established. rewrite omap_app. done.
Qed.

(** ** How many handles *)

Lemma pending_insert (acts : list Activation) i a :
  acts !! i = Some Pending → a ≠ Pending →
  sum_list_with (λ a, match a with Pending => 1 | _ => 0 end)
    (<[i := a]> acts) + 1 =
  sum_list_with (λ a, match a with Pending => 1 | _ => 0 end) acts.
Proof.
  intros Hi Ha. rewrite insert_take_drop by by eapply lookup_lt_Some.
  rewrite <- (take_drop_middle acts i Pending Hi) at 3.
  rewrite !sum_list_with_app. simpl. destruct a; [done|lia|lia].
Qed.

Lemma step_handles_bounded s ev s' :
  coherent s →
  length (unsubscribes s) +
    sum_list_with (λ a, match a with Pending => 1 | _ => 0 end) (activations s)
    ≤ length invalidates →
  step s ev = Some s' →
  length (unsubscribes s') +
    sum_list_with (λ a, match a with Pending => 1 | _ => 0 end) (activations s')
    ≤ length invalidates.
Proof.
  intros (Hidle & _) Hb Hs. step_inv Hs; simpl in *; try done.
  - destruct (Hidle eq_refl) as (_ & -> & _). simpl.
    clear. induction (length invalidates); simpl; lia.
  - pose proof (pending_insert _ i Fulfilled H ltac:(done)).
    destruct (data r); rewrite ?length_app; simpl; lia.
  - pose proof (pending_insert _ i Rejected H ltac:(done)). lia.
  - unfold teardown. by case_match.
  - by destruct (pushHandler_frame i i0 payload s) as (_ & _ & -> & -> & _).
Qed.

(** The array never holds more handles than there are descriptors: each
    subscribe call contributes at most one. *)
Theorem at_most_one_handle_per_descriptor c0 tr s :
  onCacheEntryAddedInvalidate args invalidates c0 tr = Some s →
  length (unsubscribes s) ≤ length invalidates.
Proof.
  unfold onCacheEntryAddedInvalidate. intros Hrun.
  cut (coherent s ∧
       length (unsubscribes s) +
         sum_list_with (λ a, match a with Pending => 1 | _ => 0 end)
           (activations s) ≤ length invalidates).
  { intros [_ ?]. lia. }
  eapply (run_preserves (λ s, coherent s ∧
            length (unsubscribes s) +
              sum_list_with (λ a, match a with Pending => 1 | _ => 0 end)
                (activations s) ≤ length invalidates)); [| |exact Hrun].
  - intros s1 ev s2 [Hc Hb] Hs. split; [by eapply step_coherent|].
    by eapply step_handles_bounded.
  - split; [apply init_coherent|]. simpl. lia.
Qed.

End Properties.

(** ** No descriptor *)

(** With an empty descriptor list the handler has no effect at all, in no
    run: no call, no push is possible, the cached value stays, and after
    loading and removal it settles normally. *)
Theorem no_descriptor_no_effect {Service Draft Payload Args Endpoint : Type}
    (args : Args) (c0 : Draft) :
  (∀ tr (s : State Service Draft Payload Args Endpoint),
     onCacheEntryAddedInvalidate args [] c0 tr = Some s →
     effects s = [] ∧ unsubscribes s = [] ∧ cached s = c0) ∧
  ∃ s : State Service Draft Payload Args Endpoint,
    onCacheEntryAddedInvalidate args [] c0
      [CacheDataLoaded; CacheEntryRemoved; Resume] = Some s ∧
    phase s = Settled Normal.
Proof.
  split; [|by eexists].
  unfold onCacheEntryAddedInvalidate. intros tr s Hrun.
  set (P := λ s : State Service Draft Payload Args Endpoint,
         activations s = [] ∧ effects s = [] ∧
         unsubscribes s = [] ∧ cached s = c0).
  assert (∀ s ev s', P s → step args [] s ev = Some s' → P s') as Hstep.
  { clear. intros s ev s' (Ha & He & Hu & Hc) Hs. unfold P.
    destruct ev; simpl in Hs; repeat case_match; simplify_eq; simpl;
      try (by rewrite Ha in * ); try done.
    - by rewrite He.
    - unfold teardown. rewrite Hu. simpl. done. }
  by destruct (run_preserves args [] P Hstep tr (init c0) s) as (_ & ? & ? & ?).
Qed.

(** * The scenarios, run *)

(** Two descriptors; the second call is acknowledged with a handle, the
    first one is rejected, the entry is removed, line 63 resumes. *)
Lemma activation_issues_one_call_per_descriptor_witness :
  ∃ s : St0,
    onCacheEntryAddedInvalidate (wallet 1)
      [sub_balance; refetch_transactions] ∅
      ([] ++ CacheDataLoaded ::
         [Respond 1 (with_handle h1); Reject 0; CacheEntryRemoved; Resume])
      = Some s ∧
    calls (effects s) =
      [("sub_balance"%string, WALLET, 0); ("on_coin_added"%string, WALLET, 1)].
Proof.
  eexists. split; [reflexivity|].
  apply (activation_issues_one_call_per_descriptor
           (wallet 1) [sub_balance; refetch_transactions] ∅ []
           [Respond 1 (with_handle h1); Reject 0; CacheEntryRemoved; Resume]).
  reflexivity.
Defined.

(** A handle that arrives after a sibling's rejection has sent the handler
    into [finally], but before the entry is removed, is closed. *)
Lemma teardown_closes_recorded_handles_witness :
  ∃ s : St0,
    onCacheEntryAddedInvalidate (wallet 1)
      [sub_balance; refetch_transactions] ∅
      ([CacheDataLoaded; Reject 0; Respond 1 (with_handle h1);
        CacheEntryRemoved] ++ Resume :: []) = Some s ∧
    invoked (effects s) = [h1].
Proof.
  eexists. split; [reflexivity|].
  apply (teardown_closes_recorded_handles
           (wallet 1) [sub_balance; refetch_transactions] ∅
           [CacheDataLoaded; Reject 0; Respond 1 (with_handle h1);
            CacheEntryRemoved] []).
  - reflexivity.
  - repeat constructor.
Defined.

(** C1: the code leaks a late handle.  The first call is rejected, the
    entry is removed and line 64 runs over the empty array; the second
    call is then acknowledged with [h1].  The handle is pushed onto the
    array, and no continuation of the run ever invokes it.  On the
    sibling path, where the first call is acknowledged instead of
    rejected, the same late handle is invoked. *)
Lemma late_handle_is_never_closed :
  (∃ s : St0,
     onCacheEntryAddedInvalidate (wallet 1)
       [sub_balance; refetch_transactions] ∅
       [CacheDataLoaded; Reject 0; CacheEntryRemoved; Resume;
        Respond 1 (with_handle h1)] = Some s ∧
     phase s = Settled (Throw (SubscribeRejected 0)) ∧
     unsubscribes s = [h1] ∧
     ∀ post s',
       run (wallet 1) [sub_balance; refetch_transactions] s post = Some s' →
       invoked (effects s') = []) ∧
  (∃ s : St0,
     onCacheEntryAddedInvalidate (wallet 1)
       [sub_balance; refetch_transactions] ∅
       [CacheDataLoaded; Respond 0 (with_handle h2); CacheEntryRemoved;
        Respond 1 (with_handle h1); Resume] = Some s ∧
     phase s = Settled Normal ∧
     invoked (effects s) = [h2; h1]).
Proof.
  split.
  - eexists. split; [reflexivity|]. split; [reflexivity|].
    split; [reflexivity|]. intros post s' Hpost.
    eapply run_settled in Hpost as [_ ->]; reflexivity.
  - eexists. split; [reflexivity|]. split; reflexivity.
Qed.

(** Three descriptors acknowledged in the order 1, 0, 2; the handle of
    descriptor 0 throws: [h1] and [h_bad] are invoked, [h2] is not. *)
Lemma teardown_in_order_until_throw_witness :
  ∃ s : St0,
    onCacheEntryAddedInvalidate (wallet 1)
      [sub_balance; refetch_transactions; sub_balance_of_wallet] ∅
      ([CacheDataLoaded; Respond 1 (with_handle h1);
        Respond 0 (with_handle h_bad); Respond 2 (with_handle h2);
        CacheEntryRemoved] ++ Resume :: []) = Some s ∧
    invoked (effects s) = [h1; h_bad] ∧
    phase s = Settled (Throw (UnsubscribeThrew h_bad)).
Proof.
  eexists. split; [reflexivity|].
  apply (proj2 (teardown_in_order_until_throw
           (wallet 1)
           [sub_balance; refetch_transactions; sub_balance_of_wallet] ∅
           [CacheDataLoaded; Respond 1 (with_handle h1);
            Respond 0 (with_handle h_bad); Respond 2 (with_handle h2);
            CacheEntryRemoved] [] _ eq_refl) [h1] h_bad [h2]).
  - reflexivity.
  - repeat constructor.
  - reflexivity.
Defined.





(** The load is rejected, the entry is removed, line 63 resumes: nothing
    was called and the handler settles with the rejection. *)
Lemma load_rejection_skips_activation_witness :
  ∃ s : St0,
    onCacheEntryAddedInvalidate (wallet 1)
      [sub_balance; refetch_transactions] ∅
      ([] ++ CacheDataRejected :: [CacheEntryRemoved; Resume]) = Some s ∧
    calls (effects s) = [] ∧ invoked (effects s) = [] ∧
    phase s = Settled (Throw LoadRejected).
Proof.
  eexists. split; [reflexivity|].
  destruct (load_rejection_skips_activation
              (wallet 1) [sub_balance; refetch_transactions] ∅
              [] [CacheEntryRemoved; Resume] _ eq_refl)
    as (Hcalls & Hinv & _).
  split; [exact Hcalls|]. split; [exact Hinv|]. reflexivity.
Defined.

(** The entry of wallet 1 with balance 3: a push for wallet 2 leaves the
    state as it is, a push for wallet 1 sets the balance. *)
Lemma skip_gates_the_push_witness :
  let s : St0 := activate [sub_balance_of_wallet] (init (balance 3)) in
  step (wallet 1) [sub_balance_of_wallet] s (Push 0 (wallet_balance 2 9))
    = Some s ∧
  ∃ s' : St0,
    step (wallet 1) [sub_balance_of_wallet] s (Push 0 (wallet_balance 1 9))
      = Some s' ∧
    get (cached s') "balance" = JsNumber 9.
Proof.
  intros s. split.
  - destruct (skip_gates_the_push (wallet 1) [sub_balance_of_wallet] s 0
                sub_balance_of_wallet _ (wallet_balance 2 9)
                eq_refl eq_refl (ex_intro _ Pending eq_refl))
      as (s' & Hstep & Hfalse & _).
    rewrite Hstep. f_equal. apply Hfalse. reflexivity.
  - destruct (skip_gates_the_push (wallet 1) [sub_balance_of_wallet] s 0
                sub_balance_of_wallet _ (wallet_balance 1 9)
                eq_refl eq_refl (ex_intro _ Pending eq_refl))
      as (s' & Hstep & _ & Htrue).
    exists s'. split; [exact Hstep|].
    destruct (Htrue eq_refl) as [-> _]. reflexivity.
Defined.

(** Pushes [{balance: 5}] then [{balance: 7}]: the cached balance is 5
    after the first and 7 after the second, and the recipe ran twice. *)
Lemma onUpdate_runs_once_per_push_in_order_witness :
  let s : St0 := activate [sub_balance] (init ∅) in
  ∃ s1 s2 : St0,
    run (wallet 1) [sub_balance] s [Push 0 (balance 5)] = Some s1 ∧
    get (cached s1) "balance" = JsNumber 5 ∧
    run (wallet 1) [sub_balance] s [Push 0 (balance 5); Push 0 (balance 7)]
      = Some s2 ∧
    get (cached s2) "balance" = JsNumber 7 ∧
    updates (effects s2) = [(0, balance 5); (0, balance 7)].
Proof.
  intros s.
  destruct (onUpdate_runs_once_per_push_in_order (wallet 1) [sub_balance] s 0
              sub_balance _ [balance 5; balance 7] eq_refl eq_refl)
    as (s2 & Hrun & Hupd & Hc & Hpre).
  - repeat constructor.
  - by exists Pending.
  - destruct (Hpre 1) as (s1 & Hrun1 & Hc1).
    exists s1, s2. split; [exact Hrun1|]. split.
    { rewrite Hc1. reflexivity. }
    split; [exact Hrun|]. split.
    { rewrite Hc. reflexivity. }
    exact Hupd.
Defined.

(** Two descriptors, one [onUpdate] and one [endpoint]: a push to the
    second dispatches one forced refetch and leaves the value alone. *)
Lemma endpoint_push_refetches_witness :
  let s : St0 :=
    activate [sub_balance; refetch_transactions] (init (balance 3)) in
  ∃ s' : St0,
    step (wallet 1) [sub_balance; refetch_transactions] s (Push 1 (balance 9))
      = Some s' ∧
    dispatched (effects s') =
      [{| act_endpoint := "getTransactions"%string; act_args := wallet 1;
          subscribe := false; forceRefetch := true |}] ∧
    cached s' = balance 3.
Proof.
  intros s.
  destruct (endpoint_push_refetches (wallet 1)
              [sub_balance; refetch_transactions] s 1
              refetch_transactions "getTransactions"%string (balance 9)
              eq_refl eq_refl eq_refl (ex_intro _ Pending eq_refl))
    as (s' & Hstep & Hd & Hframe).
  exists s'. split; [exact Hstep|]. split; [exact Hd|].
  destruct (Hframe eq_refl) as [-> _]. reflexivity.
Defined.

(** C5 fails on the code for a descriptor that also carries [onUpdate]:
    the accepted push dispatches the refetch and changes the value. *)
Lemma endpoint_push_may_mutate :
  let s : St0 := activate [balance_and_refetch] (init (balance 3)) in
  endpoint balance_and_refetch = Some "getTransactions"%string ∧
  discards (wallet 1) balance_and_refetch (balance 9) = false ∧
  ∃ s' : St0,
    step (wallet 1) [balance_and_refetch] s (Push 0 (balance 9)) = Some s' ∧
    get (cached s) "balance" = JsNumber 3 ∧
    get (cached s') "balance" = JsNumber 9 ∧
    cached s' ≠ cached s.
Proof.
  intros s. split; [reflexivity|]. split; [reflexivity|].
  eexists. split; [reflexivity|]. split; [reflexivity|].
  split; [reflexivity|].
  intros Heq. apply (f_equal (λ o, get o "balance")) in Heq.
  vm_compute in Heq. discriminate Heq.
Qed.

(** The descriptor with both triggers: the recipe, then the refetch. *)
Lemma both_triggers_apply_in_order_witness :
  let s : St0 := activate [balance_and_refetch] (init (balance 3)) in
  ∃ s' : St0,
    step (wallet 1) [balance_and_refetch] s (Push 0 (balance 9)) = Some s' ∧
    get (cached s') "balance" = JsNumber 9 ∧
    effects s' = effects s ++
      [EUpdate 0 (balance 9);
       EDispatch (initiate "getTransactions"%string (wallet 1) false true)].
Proof.
  intros s.
  destruct (both_triggers_apply_in_order (wallet 1) [balance_and_refetch] s 0
              balance_and_refetch _ "getTransactions"%string (balance 9)
              eq_refl eq_refl eq_refl eq_refl (ex_intro _ Pending eq_refl))
    as (s' & Hstep & Hc & He).
  exists s'. split; [exact Hstep|]. split; [|exact He].
  rewrite Hc. reflexivity.
Defined.

(** * Block rewards *)

Module BlockRewards.

Ltac by_epoch h :=
  unfold calculatePoolReward, calculateBaseFarmerReward;
  repeat match goal with
  | |- context [Z.eqb ?a ?b] => destruct (Z.eqb_spec a b)
  | |- context [Z.ltb ?a ?b] => destruct (Z.ltb_spec a b)
  end;
  unfold BLOCKS_PER_YEAR in *; try lia.

(** At every height the pool's share is seven times the farmer's: the
    block reward is split 7/8 to 1/8. *)
Theorem pool_is_seven_times_farmer (height : Z) :
  (calculatePoolReward height == 7 * calculateBaseFarmerReward height)%Q.
Proof. by_epoch height; by vm_compute. Qed.

(** The prefarm at height 0 is 21,000,000 coins; every other height
    below three years of blocks -- negative ones too -- pays 2 coins. *)
Theorem prefarm_then_two_per_block (height : Z) :
  (height < 3 * BLOCKS_PER_YEAR)%Z →
  (calculatePoolReward height + calculateBaseFarmerReward height ==
     if (height =? 0)%Z then 21000000 * MOJO_PER_LITTLELAMBOCOIN
     else 2 * MOJO_PER_LITTLELAMBOCOIN)%Q.
Proof. intros Hh. by_epoch height; by vm_compute. Qed.

(** From the first block to the twelfth year, three years of blocks later
    both rewards are halved. *)
Theorem rewards_halve_every_three_years (height : Z) :
  (0 < height < 12 * BLOCKS_PER_YEAR)%Z →
  (calculatePoolReward (height + 3 * BLOCKS_PER_YEAR) ==
     calculatePoolReward height / 2)%Q ∧
  (calculateBaseFarmerReward (height + 3 * BLOCKS_PER_YEAR) ==
     calculateBaseFarmerReward height / 2)%Q.
Proof. intros Hh. split; by_epoch height; by vm_compute. Qed.

(** After the prefarm the rewards never grow with the height. *)
Theorem rewards_never_grow (h1 h2 : Z) :
  (0 < h1 ≤ h2)%Z →
  (calculatePoolReward h2 <= calculatePoolReward h1)%Q ∧
  (calculateBaseFarmerReward h2 <= calculateBaseFarmerReward h1)%Q.
Proof. intros Hh. split; by_epoch h1; by vm_compute. Qed.

(** From the twelfth year on the block pays 0.125 coin for ever. *)
Theorem rewards_bottom_out (height : Z) :
  (12 * BLOCKS_PER_YEAR ≤ height)%Z →
  (calculatePoolReward height + calculateBaseFarmerReward height ==
     0.125 * MOJO_PER_LITTLELAMBOCOIN)%Q.
Proof. intros Hh. by_epoch height; by vm_compute. Qed.

(** Every reward is a whole number of mojos, and none is below the one of
    the last epoch: the rewards never reach zero. *)
Theorem rewards_are_whole_mojos (height : Z) :
  ∃ pool farmer : Z,
    (calculatePoolReward height == inject_Z pool)%Q ∧
    (calculateBaseFarmerReward height == inject_Z farmer)%Q ∧
    (15625000000 ≤ farmer)%Z ∧ pool = (7 * farmer)%Z.
Proof.
  exists (Qnum (Qred (calculatePoolReward height))),
         (Qnum (Qred (calculateBaseFarmerReward height))).
  by_epoch height; by vm_compute.
Qed.

Lemma prefarm_then_two_per_block_witness :
  (calculatePoolReward 0 + calculateBaseFarmerReward 0 ==
     21000000 * MOJO_PER_LITTLELAMBOCOIN)%Q ∧
  (calculatePoolReward 1 + calculateBaseFarmerReward 1 ==
     2 * MOJO_PER_LITTLELAMBOCOIN)%Q.
Proof.
  split.
  - apply (prefarm_then_two_per_block 0). reflexivity.
  - apply (prefarm_then_two_per_block 1). reflexivity.
Defined.

Lemma rewards_halve_every_three_years_witness :
  (calculatePoolReward (1 + 3 * BLOCKS_PER_YEAR) ==
     calculatePoolReward 1 / 2)%Q ∧
  (calculateBaseFarmerReward (1 + 3 * BLOCKS_PER_YEAR) ==
     calculateBaseFarmerReward 1 / 2)%Q.
Proof. apply (rewards_halve_every_three_years 1). split; reflexivity. Defined.

Lemma rewards_never_grow_witness :
  (calculatePoolReward (6 * BLOCKS_PER_YEAR) <= calculatePoolReward 1)%Q ∧
  (calculateBaseFarmerReward (6 * BLOCKS_PER_YEAR)
     <= calculateBaseFarmerReward 1)%Q.
Proof.
  apply (rewards_never_grow 1 (6 * BLOCKS_PER_YEAR)).
  split; [reflexivity|discriminate].
Defined.

Lemma rewards_bottom_out_witness :
  (calculatePoolReward (12 * BLOCKS_PER_YEAR) +
   calculateBaseFarmerReward (12 * BLOCKS_PER_YEAR) ==
     0.125 * MOJO_PER_LITTLELAMBOCOIN)%Q.
Proof. apply (rewards_bottom_out (12 * BLOCKS_PER_YEAR)). discriminate. Defined.

End BlockRewards.

(** * Sending a token *)

Section WalletCATSendProperties.
Context {SyncingStatus WalletType Mojo : Type} `{EqDecision SyncingStatus}.
Variable SYNCED : SyncingStatus.
Variable trim : string → string.
Variable isNumeric : string → bool.
Variable catToMojo : string → Mojo.
Variable littlelambocoinToMojo : string → Mojo.

Lemma prefix_substring n s : String.prefix (String.substring 0 n s) s = true.
Proof.
  revert s. induction n as [|n IH]; intros [|c s]; simpl; try done.
  destruct (Ascii.ascii_dec c c); [apply IH|done].
Qed.

Lemma prefix_trans p q s :
  String.prefix p q = true → String.prefix q s = true →
  String.prefix p s = true.
Proof.
  revert q s. induction p as [|a p IH]; intros q s; [by destruct s|].
  destruct q as [|b q]; [done|]. destruct s as [|c s]; [done|]. simpl.
  destruct (Ascii.ascii_dec a b) as [->|]; [|done].
  destruct (Ascii.ascii_dec b c) as [->|]; [|done].
  destruct (Ascii.ascii_dec c c); [|done]. apply IH.
Qed.

Lemma prefix_includes s p : String.prefix p s = true → includes s p = true.
Proof. destruct s; simpl; [done|]. by intros ->. Qed.

Lemma length_substring n m s : String.length (String.substring n m s) ≤ m.
Proof.
  revert m s. induction n as [|n IH]; intros m s.
  - revert s. induction m as [|m IHm]; intros [|c s]; simpl; try lia.
    specialize (IHm s). lia.
  - destruct s as [|c s]; simpl; [lia|apply IH].
Qed.

(** The [colour_addr://] branch is behind a test it cannot pass. *)
Lemma strip_colour_skipped assetId a :
  includes a "colour" = false → strip_colour assetId a = inr a.
Proof.
  intros Hno. unfold strip_colour, slice.
  destruct (String.eqb_spec (String.substring 0 (14 - 0) a) "colour_addr://")
    as [Heq|]; [|done].
  assert (includes a "colour" = true) as Hyes; [|congruence].
  apply prefix_includes, (prefix_trans _ "colour_addr://"); [done|].
  rewrite <- Heq. apply prefix_substring.
Qed.

(** Twelve code units never equal the 23 of the scheme: lines 150-155 can
    only remove a leading [0x] or [0X]. *)
Lemma strip_prefixes_hex a :
  strip_prefixes a =
    if startsWith a "0x" || startsWith a "0X" then slice_from a 2 else a.
Proof.
  unfold strip_prefixes, slice.
  destruct (String.eqb_spec (String.substring 0 (12 - 0) a)
              "littlelambocoin_addr://") as [Heq|]; [|done].
  pose proof (length_substring 0 (12 - 0) a) as Hlen.
  rewrite Heq in Hlen. simpl in Hlen. lia.
Qed.

(** [handleSubmit] never reports an address of a different colour: every
    address that would reach the comparison of line 145 begins with
    [colour_addr://], contains [colour], and was refused on line 135. *)
Theorem different_colour_is_never_reported walletId
    (wallet : option (Wallet WalletType)) isSpendCatLoading
    loading state retireAddress data :
  handleSubmit SYNCED trim isNumeric catToMojo littlelambocoinToMojo
    walletId wallet isSpendCatLoading loading state retireAddress data
  ≠ Thrown DifferentColour.
Proof.
  unfold handleSubmit.
  destruct (negb (bool_decide (state = SYNCED))); [done|].
  destruct (negb _); [done|].
  destruct (negb (isNumeric _)); [done|].
  destruct (negb (isNumeric _)); [done|].
  destruct (includes _ "colour") eqn:Hc; [done|].
  destruct (_ || _); [done|].
  by rewrite (strip_colour_skipped _ _ Hc).
Qed.

(** What [handleSubmit] passes to [spendCAT] has gone through every test:
    the wallet is synced and present, nothing is loading, amount and fee
    are numeric (a blank fee counting as 0), and the address -- the retire
    address when [retire] was entered -- contains none of [colour],
    [littlelambocoin_addr], [colour_desc]; it is sent as it is, less a
    leading [0x] or [0X]. *)
Theorem sent_only_after_validation walletId
    (wallet : option (Wallet WalletType)) isSpendCatLoading
    loading state retireAddress data q :
  handleSubmit SYNCED trim isNumeric catToMojo littlelambocoinToMojo
    walletId wallet isSpendCatLoading loading state retireAddress data
  = Spend q →
  let a := retired retireAddress (address data) in
  let f := if truthy (trim (fee data)) then trim (fee data) else "0"%string in
  state = SYNCED ∧ is_Some wallet ∧
  isSpendCatLoading = false ∧ loading = false ∧
  isNumeric (trim (amount data)) = true ∧ isNumeric f = true ∧
  includes a "colour" = false ∧
  includes a "littlelambocoin_addr" = false ∧
  includes a "colour_desc" = false ∧
  q_walletId q = walletId ∧
  q_address q =
    (if startsWith a "0x" || startsWith a "0X" then slice_from a 2 else a) ∧
  q_amount q = catToMojo (trim (amount data)) ∧
  q_fee q = littlelambocoinToMojo f ∧
  waitForConfirmation q = true.
Proof.
  intros Hs a f. unfold handleSubmit in Hs.
  change (retired retireAddress (address data)) with a in Hs.
  change (if truthy (trim (fee data)) then trim (fee data) else "0"%string)
    with f in Hs.
  destruct (bool_decide (state = SYNCED)) eqn:Hst; [|done]. simpl in Hs.
  apply bool_decide_eq_true in Hst.
  destruct (bool_decide (is_Some wallet)) eqn:Hw; [|done].
  apply bool_decide_eq_true in Hw.
  destruct isSpendCatLoading; [done|]. destruct loading; [done|].
  simpl in Hs.
  destruct (isNumeric (trim (amount data))) eqn:Hamount; [|done].
  simpl in Hs.
  destruct (isNumeric f) eqn:Hfee; [|done]. simpl in Hs.
  destruct (includes a "colour") eqn:Hc; [done|].
  destruct (includes a "littlelambocoin_addr") eqn:Hl; [done|].
  destruct (includes a "colour_desc") eqn:Hd; [done|]. simpl in Hs.
  rewrite (strip_colour_skipped _ _ Hc), strip_prefixes_hex in Hs.
  injection Hs as <-. simpl. auto 20.
Qed.

(** A wallet that [useIsWalletSynced] reports as synced is not refused by
    [handleSubmit] for syncing; and what [handleSubmit] refuses for
    syncing is not reported as synced. *)
Theorem synced_wallet_is_not_asked_to_sync isLoading walletId
    (wallet : option (Wallet WalletType))
    isSpendCatLoading loading state retireAddress data :
  useIsWalletSynced SYNCED isLoading state = true →
  handleSubmit SYNCED trim isNumeric catToMojo littlelambocoinToMojo
    walletId wallet isSpendCatLoading loading state retireAddress data
  ≠ Thrown FinishSyncing.
Proof.
  unfold useIsWalletSynced, handleSubmit.
  intros [_ Hst]%andb_prop. rewrite Hst. simpl.
  destruct (negb _); [done|].
  destruct (negb (isNumeric _)); [done|].
  destruct (negb (isNumeric _)); [done|].
  destruct (includes _ "colour") eqn:Hc; [done|].
  destruct (_ || _); [done|].
  by rewrite (strip_colour_skipped _ _ Hc).
Qed.

End WalletCATSendProperties.

(** [0xabc] sent from a synced wallet with a blank fee. *)
Lemma sent_only_after_validation_witness :
  ∃ q : QueryData (Mojo := string),
    handleSubmit true (λ t, t) digits (λ t, t) (λ t, t)
      1 (Some a_wallet) false false true None (a_transfer "0xabc") = Spend q ∧
    q_address q = "abc"%string ∧ q_fee q = "0"%string.
Proof.
  eexists. split; [reflexivity|].
  match goal with |- q_address ?q = _ ∧ _ =>
    assert (handleSubmit true (λ t, t) digits (λ t, t) (λ t, t)
              1 (Some a_wallet) false false true None (a_transfer "0xabc")
            = Spend q) as Hs by reflexivity
  end.
  destruct (sent_only_after_validation _ _ _ _ _ _ _ _ _ _ _ _ _ Hs)
    as (_ & _ & _ & _ & _ & _ & _ & _ & _ & _ & Ha & _ & Hf & _).
  split; [exact Ha|exact Hf].
Defined.

Lemma synced_wallet_is_not_asked_to_sync_witness :
  useIsWalletSynced true false true = true ∧
  handleSubmit true (λ t, t) digits (λ t, t) (λ t, t)
    1 (Some a_wallet) false false true None (a_transfer "0xabc")
  ≠ Thrown FinishSyncing.
Proof.
  split; [reflexivity|].
  apply (synced_wallet_is_not_asked_to_sync true (λ t, t) digits (λ t, t)
           (λ t, t) false). reflexivity.
Defined.

(** * Further scenarios of the handler *)

(** Both calls acknowledged, the entry not yet removed: two handles are
    held and none is invoked. *)
Lemma nothing_torn_down_before_removal_witness :
  ∃ s : St0,
    onCacheEntryAddedInvalidate (wallet 1)
      [sub_balance; refetch_transactions] ∅
      [CacheDataLoaded; Respond 0 (with_handle h1); Respond 1 (with_handle h2)]
      = Some s ∧
    unsubscribes s = [h1; h2] ∧
    unsettled s ∧ invoked (effects s) = [].
Proof.
  eexists. split; [reflexivity|]. split; [reflexivity|].
  apply (nothing_torn_down_before_removal (wallet 1)
           [sub_balance; refetch_transactions] ∅
           [CacheDataLoaded; Respond 0 (with_handle h1);
            Respond 1 (with_handle h2)]).
  - reflexivity.
  - intros Hin. repeat (apply elem_of_cons in Hin as [Hin|Hin]; [discriminate|]).
    by apply elem_of_nil in Hin.
Defined.

(** Three handles recorded, the second throws: what was invoked is the
    initial segment ending with it. *)
Lemma invoked_is_prefix_of_recorded_witness :
  ∃ s : St0,
    onCacheEntryAddedInvalidate (wallet 1)
      [sub_balance; refetch_transactions; sub_balance_of_wallet] ∅
      [CacheDataLoaded; Respond 1 (with_handle h1);
       Respond 0 (with_handle h_bad); Respond 2 (with_handle h2);
       CacheEntryRemoved; Resume] = Some s ∧
    invoked (effects s) = [h1; h_bad] ∧
    unsubscribes s = [h1; h_bad; h2] ∧
    invoked (effects s) `prefix_of` [h1; h_bad; h2].
Proof.
  eexists. split; [reflexivity|]. split; [reflexivity|].
  apply (invoked_is_prefix_of_recorded (wallet 1)
           [sub_balance; refetch_transactions; sub_balance_of_wallet] ∅
           [CacheDataLoaded; Respond 1 (with_handle h1);
            Respond 0 (with_handle h_bad); Respond 2 (with_handle h2);
            CacheEntryRemoved; Resume]).
  reflexivity.
Defined.

(** The second call is acknowledged and the entry removed while the first
    call is still pending: the handle is held, nothing is invoked. *)
Lemma pending_call_holds_teardown_back_witness :
  ∃ s : St0,
    onCacheEntryAddedInvalidate (wallet 1)
      [sub_balance; refetch_transactions] ∅
      [CacheDataLoaded; Respond 1 (with_handle h1); CacheEntryRemoved]
      = Some s ∧
    removed s = true ∧ unsubscribes s = [h1] ∧
    phase s = AwaitAll ∧ invoked (effects s) = [] ∧
    step (wallet 1) [sub_balance; refetch_transactions] s Resume = None.
Proof.
  eexists. split; [reflexivity|]. split; [reflexivity|].
  split; [reflexivity|].
  apply (pending_call_holds_teardown_back (wallet 1)
           [sub_balance; refetch_transactions] ∅
           [CacheDataLoaded; Respond 1 (with_handle h1); CacheEntryRemoved]
           _ 0).
  - reflexivity.
  - repeat constructor.
  - reflexivity.
Defined.

(** The second call rejects, then the first: the handler settles with the
    rejection of the second. *)
Lemma first_rejection_is_the_outcome_witness :
  ∃ s : St0,
    onCacheEntryAddedInvalidate (wallet 1)
      [sub_balance; refetch_transactions] ∅
      ([CacheDataLoaded] ++ Reject 1 :: [Reject 0; CacheEntryRemoved; Resume])
      = Some s ∧
    (phase s = AwaitRemoved (Throw (SubscribeRejected 1)) ∨
     phase s = Settled (Throw (SubscribeRejected 1)) ∨
     ∃ h, phase s = Settled (Throw (UnsubscribeThrew h)) ∧ throws h = true).
Proof.
  eexists. split; [reflexivity|].
  apply (first_rejection_is_the_outcome (wallet 1)
           [sub_balance; refetch_transactions] ∅
           [CacheDataLoaded] 1 [Reject 0; CacheEntryRemoved; Resume]).
  - reflexivity.
  - repeat constructor.
Defined.

(** Pushes interleaved with an acknowledgment, a rejection, the removal
    and the teardown: the balance is the one last pushed and one refetch
    was dispatched. *)
Lemma cache_is_driven_by_pushes_alone_witness :
  ∃ s : St0,
    onCacheEntryAddedInvalidate (wallet 1)
      [sub_balance; refetch_transactions] ∅
      [CacheDataLoaded; Push 0 (balance 5); Respond 0 (with_handle h1);
       Push 1 (balance 0); Push 0 (balance 7); Reject 1;
       CacheEntryRemoved; Resume] = Some s ∧
    get (cached s) "balance" = JsNumber 7 ∧
    dispatched (effects s) =
      [initiate "getTransactions"%string (wallet 1) false true].
Proof.
  eexists. split; [reflexivity|].
  match goal with |- get (cached ?s) _ = _ ∧ _ =>
    destruct (cache_is_driven_by_pushes_alone (wallet 1)
                [sub_balance; refetch_transactions] ∅
                [CacheDataLoaded; Push 0 (balance 5);
                 Respond 0 (with_handle h1); Push 1 (balance 0);
                 Push 0 (balance 7); Reject 1; CacheEntryRemoved; Resume]
                s eq_refl) as [Hc Hd]
  end.
  split; [rewrite Hc; reflexivity|exact Hd].
Defined.

(** Two calls acknowledged in the order 1, 0 with the removal in between:
    the handler settles normally and has invoked [h2] then [h1]. *)
Lemma all_acknowledged_in_any_order_witness :
  ∃ s : St0,
    onCacheEntryAddedInvalidate (wallet 1)
      [sub_balance; refetch_transactions] ∅
      (CacheDataLoaded ::
       acknowledge (λ i, with_handle (if Nat.eqb i 0 then h1 else h2)) [1] ++
       CacheEntryRemoved ::
       acknowledge (λ i, with_handle (if Nat.eqb i 0 then h1 else h2)) [0] ++
       [Resume]) = Some s ∧
    phase s = Settled Normal ∧
    invoked (effects s) = [h2; h1].
Proof.
  destruct (all_acknowledged_in_any_order (wallet 1)
              [sub_balance; refetch_transactions] (∅ : JsObject)
              (λ i, with_handle (if Nat.eqb i 0 then h1 else h2)) [1] [0])
    as (s & Hrun & Hp & Hinv & _).
  - apply perm_swap.
  - repeat constructor.
  - exists s. split; [exact Hrun|]. split; [exact Hp|exact Hinv].
Defined.

(** The handle of a call acknowledged after the teardown is recorded and
    not invoked. *)
Lemma acknowledged_after_teardown_is_not_invoked_witness :
  ∃ s : St0,
    onCacheEntryAddedInvalidate (wallet 1)
      [sub_balance; refetch_transactions] ∅
      ([CacheDataLoaded; Reject 0; CacheEntryRemoved] ++
       Resume :: [Respond 1 (with_handle h1)]) = Some s ∧
    invoked (effects s) `prefix_of` [] ∧
    unsubscribes s = [] ++ [h1].
Proof.
  eexists. split; [reflexivity|].
  apply (acknowledged_after_teardown_is_not_invoked (wallet 1)
           [sub_balance; refetch_transactions] ∅
           [CacheDataLoaded; Reject 0; CacheEntryRemoved]
           [Respond 1 (with_handle h1)]).
  reflexivity.
Defined.

Lemma at_most_one_handle_per_descriptor_witness :
  ∃ s : St0,
    onCacheEntryAddedInvalidate (wallet 1)
      [sub_balance; refetch_transactions] ∅
      [CacheDataLoaded; Respond 0 (with_handle h1); Respond 1 (with_handle h2)]
      = Some s ∧
    length (unsubscribes s) ≤ 2.
Proof.
  eexists. split; [reflexivity|].
  apply (at_most_one_handle_per_descriptor (wallet 1)
           [sub_balance; refetch_transactions] ∅
           [CacheDataLoaded; Respond 0 (with_handle h1);
            Respond 1 (with_handle h2)]).
  reflexivity.
Defined.

(** * The wallet's icon and badge *)

Section WalletIconsProperties.
Context {WalletType : Type} `{EqDecision WalletType}.
Variable STANDARD_WALLET CAT : WalletType.

Lemma find_token_Some catList (wallet : Wallet WalletType) :
  is_Some (find_token catList wallet) ↔
  ∃ token, token ∈ catList ∧
    Some (token_assetId token) = wallet_assetId wallet.
Proof.
  unfold find_token. split.
  - intros [token Hfind]. apply find_some in Hfind as [Hin Heq].
    exists token. split; [by apply list_elem_of_In|].
    by apply bool_decide_eq_true in Heq.
  - intros (token & Hin & Heq).
    destruct (List.find _ catList) as [t|] eqn:Hfind; [by eexists|].
    apply list_elem_of_In in Hin.
    pose proof (find_none _ _ Hfind _ Hin) as Hno. simpl in Hno.
    by apply bool_decide_eq_false in Hno.
Qed.

(** The badge is rendered exactly for a token wallet whose asset id is
    the one of a token of the loaded list; never while the list is
    loading, never without a list, never for a wallet without asset id. *)
Theorem badge_iff_token_listed data isLoading (wallet : Wallet WalletType) :
  WalletBadge CAT data isLoading wallet = true ↔
  isLoading = false ∧ type wallet = CAT ∧
  ∃ catList token, data = Some catList ∧ token ∈ catList ∧
    wallet_assetId wallet = Some (token_assetId token).
Proof.
  unfold WalletBadge. split.
  - destruct isLoading; [done|]. simpl.
    destruct (bool_decide (type wallet = CAT)) eqn:Ht; [|done].
    apply bool_decide_eq_true in Ht.
    destruct (find_token _ wallet) as [t|] eqn:Hfind; [|done]. intros _.
    destruct (proj1 (find_token_Some (default [] data) wallet))
      as (token & Hin & Heq); [by rewrite Hfind|].
    split; [done|]. split; [done|].
    destruct data as [catList|]; [|by apply elem_of_nil in Hin].
    by exists catList, token.
  - intros (-> & Ht & catList & token & -> & Hin & Heq). simpl.
    rewrite bool_decide_eq_true_2 by done.
    destruct (proj2 (find_token_Some catList wallet)) as [t ->]; [|done].
    by exists token.
Qed.

(** For a wallet that is not a standard wallet, [WalletIcon] shows a
    token symbol exactly when [WalletBadge] shows the badge. *)
Theorem icon_and_badge_agree data isLoading currencyCode
    (wallet : Wallet WalletType) :
  type wallet ≠ STANDARD_WALLET →
  WalletBadge CAT data isLoading wallet = true ↔
  ∃ sym, WalletIcon STANDARD_WALLET CAT data isLoading currencyCode wallet
         = TokenSymbol sym.
Proof.
  unfold WalletBadge, WalletIcon. intros Hne.
  rewrite (bool_decide_eq_false_2 (type wallet = STANDARD_WALLET)) by done.
  destruct (negb isLoading && bool_decide (type wallet = CAT)).
  - destruct (find_token _ wallet); split; try done; [by eexists|by intros [? ?]].
  - split; [done|by intros [? ?]].
Qed.

End WalletIconsProperties.

(** A token wallet whose asset id is second in the loaded list. *)
Lemma badge_iff_token_listed_witness :
  WalletBadge 6 (Some [other_token; a_token]) false a_wallet = true.
Proof.
  apply (badge_iff_token_listed 6 (Some [other_token; a_token]) false a_wallet).
  split; [reflexivity|]. split; [reflexivity|].
  exists [other_token; a_token], a_token.
  split; [reflexivity|]. split; [|reflexivity].
  apply list_elem_of_further, list_elem_of_here.
Defined.

(** The same wallet: the icon is the symbol of its token. *)
Lemma icon_and_badge_agree_witness :
  ∃ sym, WalletIcon 0 6 (Some [other_token; a_token]) false (Some "llc"%string)
           a_wallet = TokenSymbol sym.
Proof.
  apply (icon_and_badge_agree 0 6 (Some [other_token; a_token]) false
           (Some "llc"%string) a_wallet).
  - discriminate.
  - reflexivity.
Defined.
